(** * next-boost: the cached request handler ([src/handler.ts])

    A shallow embedding of [matchRule] and of the request listener built by
    [wrap], with the theorems that relate them to the specification of the
    cache-decision and revalidation engine.

    The listener is effectful: it mutates [req.url], the process-wide set
    [SYNC_LOCK] and the cache adapter, calls user hooks and the renderer, and
    may be interrupted by a rejected [await].  It is modelled in a small
    state-and-exception monad over a [World] that holds the request object,
    the store, the lock set and a chronological trace of the calls made. *)

From Stdlib Require Import Ascii QArith.
From stdpp Require Import base option list strings gmap.

Set Default Proof Using "Type".
Local Open Scope string_scope.
Local Open Scope Z_scope.
Local Open Scope list_scope.

(** ** Data model *)

(** A JS [number]; the handler only passes TTLs around and produces the
    constants [-1] and [0], so exact rationals are enough. *)
Abbreviation number := Q (only parsing).

(** A Node [Buffer]. *)
Abbreviation Buffer := (list Byte.byte) (only parsing).

(** A header object ([IncomingHttpHeaders], [Record<string, any>]) used as a
    map from header name to value. *)
Abbreviation Headers := (gmap string string) (only parsing).

(** [interface URLCacheRule]. *)
Record URLCacheRule := { regex : string; ttl : number }.

(** The fields of [http.IncomingMessage] the handler reads. *)
Record IncomingMessage := {
  url : string;
  method : string;
  headers : Headers
}.

(** The status strings the handler compares against: [CacheStatus] is
    ['hit' | 'stale' | 'miss'], and [serveCache] also answers ['force']. *)
Inductive CacheStatus := hit | stale | miss | force.

#[global] Instance CacheStatus_eq_dec : EqDecision CacheStatus.
Proof. solve_decision. Defined.

(** The fields of [HandlerConfig] read by [matchRule] and [wrap]
    ([cacheAdapter] is the [cache] argument of [wrap]; [setHeaders] is only
    read by [serveCache]). *)
Record HandlerConfig := {
  quiet : bool;
  rules : list URLCacheRule;
  paramFilter : option (string → bool);
  cacheKey : option (IncomingMessage → string);
  headersFilter : option (Headers → Headers)
}.

(** The result object of [matchRule]. *)
Record MatchResult := { matched : bool; m_ttl : number }.

(** ** JavaScript primitives *)

(** [Array.prototype.indexOf] on an array of strings: the first index holding
    a strictly equal element, [-1] when there is none. *)
Fixpoint indexOf_from (i : Z) (l : list string) (x : string) : Z :=
  match l with
  | [] => -1
  | y :: l' => if String.eqb y x then i else indexOf_from (i + 1) l' x
  end.

Definition indexOf (l : list string) (x : string) : Z := indexOf_from 0 l x.

(** Truthiness of a string: every string but the empty one. *)
Definition truthy (s : string) : bool := negb (String.eqb s "").

(** [Buffer.from(s)] for a string: its bytes. *)
Definition Buffer_from (s : string) : Buffer := String.list_byte_of_string s.

(** ** External collaborators *)

(** The argument object of [renderer.render] and its resolved value. *)
Record RenderArgs := {
  path : string;
  r_headers : Headers;
  r_method : string
}.

Record RenderResponse := {
  statusCode : Z;
  rv_headers : Headers;
  rv_body : Buffer
}.

(** What [serveCache] hands back, [{ status, stop }], together with the
    cached payloads (header record, body record) it wrote to [res]. *)
Record ServeCacheResult := {
  status : CacheStatus;
  stop : bool;
  served : list (Buffer * Buffer)
}.

(** Everything [handler.ts] imports or receives and does not define: the
    regular-expression engine, [filterUrl] and [isZipped] of [./utils],
    [gzipSync] of zlib, [JSON.stringify], [serveCache] of [./cache-manager]
    (it reads the store and the lock set and writes to [res]) and the
    renderer, whose promise either rejects with a reason or resolves. *)
Record Externals := {
  RegExp_test : string → string → bool;
  filterUrl : string → option (string → bool) → string;
  isZipped : Headers → bool;
  gzipSync : Buffer → Buffer;
  JSON_stringify : Headers → string;
  serveCache :
    gmap string (Buffer * number) → gset string → string → bool →
    HandlerConfig → ServeCacheResult;
  render : RenderArgs → string + RenderResponse
}.

(** ** The request classifier *)

Section Classifier.

Context (E : Externals).

(** The [for (const rule of conf.rules)] loop of [matchRule], with its
    early [return] and the fall-through result. *)
Fixpoint matchRule_rules (rs : list URLCacheRule) (req : IncomingMessage)
  : MatchResult :=
  match rs with
  | [] => {| matched := false; m_ttl := 0%Q |}
  | rule :: rs' =>
      if truthy (url req) && RegExp_test E (regex rule) (url req)
      then {| matched := true; m_ttl := ttl rule |}
      else matchRule_rules rs' req
  end.

Definition matchRule (conf : HandlerConfig) (req : IncomingMessage)
  : MatchResult :=
  let err := Z.eqb (indexOf ["GET"; "HEAD"] (method req)) (-1) in
  if err then {| matched := false; m_ttl := (-1)%Q |}
  else matchRule_rules (rules conf) req.

(** [function toBuffer(o)]. *)
Definition toBuffer (o : Headers) : Buffer :=
  Buffer_from (JSON_stringify E o).

End Classifier.

(** ** Effects *)

(** The calls that leave the handler, in the order they are made. *)
Inductive Event :=
| CallCacheKey (req : IncomingMessage)       (* conf.cacheKey(req) *)
| CallPlainHandler (req : IncomingMessage)   (* plainHandler(req, res) *)
| CallServeCache (key : string) (forced : bool)
| ServeCached (header_record body_record : Buffer) (* res written by serveCache *)
| CallRender (args : RenderArgs)             (* renderer.render(args) *)
| Serve (rv : RenderResponse)                (* serve(res, rv) *)
| Log (label : string) (u : string)          (* log(start, label, url) *)
| CacheSet (key : string) (value : Buffer) (t : number)
| CacheDel (key : string)
| LockAdd (key : string)
| LockDelete (key : string).

(** The mutable objects the listener works on: the request object (whose
    [url] it overwrites and restores), the adapter's store (what
    [set(key, value, ttl)] recorded and [del(key)] has not removed since),
    the module-level [SYNC_LOCK] set, and the trace of calls made so far. *)
Record World := {
  req : IncomingMessage;
  cache : gmap string (Buffer * number);
  SYNC_LOCK : gset string;
  trace : list Event
}.

(** How a computation ends: normally with a value, or abruptly because an
    awaited promise rejected. *)
Inductive Completion (A : Type) :=
| Normal (a : A)
| Throw (reason : string).
Arguments Normal {A} a.
Arguments Throw {A} reason.

Definition Async (A : Type) : Type := World → Completion A * World.

#[global] Instance Async_ret : MRet Async := λ A a w, (Normal a, w).

#[global] Instance Async_bind : MBind Async := λ A B k m w,
  match m w with
  | (Normal a, w') => k a w'
  | (Throw r, w') => (Throw r, w')
  end.

Definition reject {A} (reason : string) : Async A := λ w, (Throw reason, w).

Definition emit (e : Event) : Async unit := λ w,
  (Normal (),
   {| req := req w; cache := cache w; SYNC_LOCK := SYNC_LOCK w;
      trace := trace w ++ [e] |}).

Definition get_req : Async IncomingMessage := λ w, (Normal (req w), w).

(** [req.url = u]. *)
Definition set_url (u : string) : Async unit := λ w,
  (Normal (),
   {| req := {| url := u; method := method (req w);
                headers := headers (req w) |};
      cache := cache w; SYNC_LOCK := SYNC_LOCK w; trace := trace w |}).

(** [cache.set(key, value, ttl)]: an unconditional upsert. *)
Definition cache_set (key : string) (value : Buffer) (t : number)
  : Async unit := λ w,
  (Normal (),
   {| req := req w; cache := <[key := (value, t)]> (cache w);
      SYNC_LOCK := SYNC_LOCK w;
      trace := trace w ++ [CacheSet key value t] |}).

(** [cache.del(key)]: removes the entry, no error if absent. *)
Definition cache_del (key : string) : Async unit := λ w,
  (Normal (),
   {| req := req w; cache := delete key (cache w);
      SYNC_LOCK := SYNC_LOCK w;
      trace := trace w ++ [CacheDel key] |}).

(** [SYNC_LOCK.add(key)] and [SYNC_LOCK.delete(key)]. *)
Definition lock_add (key : string) : Async unit := λ w,
  (Normal (),
   {| req := req w; cache := cache w;
      SYNC_LOCK := {[key]} ∪ SYNC_LOCK w;
      trace := trace w ++ [LockAdd key] |}).

Definition lock_delete (key : string) : Async unit := λ w,
  (Normal (),
   {| req := req w; cache := cache w;
      SYNC_LOCK := SYNC_LOCK w ∖ {[key]};
      trace := trace w ++ [LockDelete key] |}).

Definition when (b : bool) (m : Async unit) : Async unit :=
  if b then m else mret ().

Definition status_label (s : CacheStatus) : string :=
  match s with
  | hit => "hit" | stale => "stale" | miss => "miss" | force => "force"
  end.

(** ** The request listener *)

Section Handler.

Context (E : Externals) (conf : HandlerConfig).

(** [!conf.quiet && log(start, label, req.url)]. *)
Definition log (label : string) : Async unit :=
  r ← get_req;
  when (negb (quiet conf)) (emit (Log label (url r))).

(** [conf.cacheKey ? conf.cacheKey(req) : req.url]: the hook receives the
    request object as it is at that moment. *)
Definition buildKey : Async string :=
  r ← get_req;
  match cacheKey conf with
  | Some builder => emit (CallCacheKey r);; mret (builder r)
  | None => mret (url r)
  end.

(** [await serveCache(cache, SYNC_LOCK, key, fc, res, conf)]. *)
Definition await_serveCache (key : string) (fc : bool)
  : Async ServeCacheResult := λ w,
  let rv := serveCache E (cache w) (SYNC_LOCK w) key fc conf in
  (Normal rv,
   {| req := req w; cache := cache w; SYNC_LOCK := SYNC_LOCK w;
      trace := trace w ++ CallServeCache key fc
                 :: map (λ p, ServeCached p.1 p.2) (served rv) |}).

(** [await renderer.render(args)]: the one awaited call whose rejection is
    followed here; the adapter, the hooks and the utilities are taken to
    return. *)
Definition await_render (args : RenderArgs) : Async RenderResponse :=
  emit (CallRender args);;
  match render E args with
  | inl reason => reject reason
  | inr rv => mret rv
  end.

(** Lines 118-132 of [wrap]: what becomes of the store once the render
    has resolved to [rv]. *)
Definition persist (key : string) (st : CacheStatus) (t : number)
    (rv : RenderResponse) : Async unit :=
  let body := rv_body rv in
  if Z.eqb (statusCode rv) 200 && Nat.ltb 0 (length body) then
    let headersToSave :=
      match headersFilter conf with
      | Some f => f (rv_headers rv)
      | None => rv_headers rv
      end in
    let buf := if isZipped E headersToSave then body
               else gzipSync E body in
    cache_set ("body:" +:+ key) buf t;;
    cache_set ("header:" +:+ key) (toBuffer E headersToSave) t
  else if bool_decide (st = force) then
    cache_del ("body:" +:+ key);;
    cache_del ("header:" +:+ key)
  else mret ().

(** Lines 106-134 of [wrap]: from [SYNC_LOCK.add(key)] to
    [SYNC_LOCK.delete(key)], with [key], [status] and [ttl] the locals
    bound earlier in the listener. *)
Definition renderAndWrite (key : string) (st : CacheStatus) (t : number)
  : Async unit :=
  lock_add key;;
  r ← get_req;
  let args := {| path := url r; r_headers := headers r;
                 r_method := method r |} in
  rv ← await_render args;
  when (negb (bool_decide (st = stale))) (emit (Serve rv));;
  log (if bool_decide (st = stale) then "update" else status_label st);;
  persist key st t rv;;
  lock_delete key.

(** The listener returned by [wrap(cache, conf, renderer, plainHandler)],
    run on the world that holds the request it was called with. *)
Definition wrap : Async unit :=
  r0 ← get_req;
  let urlBeforeFilter := url r0 in
  set_url (filterUrl E (url r0) (paramFilter conf));;
  key ← buildKey;
  r1 ← get_req;
  let mr := matchRule E conf r1 in
  set_url urlBeforeFilter;;
  if negb (matched mr) then
    r2 ← get_req; emit (CallPlainHandler r2)
  else
    r2 ← get_req;
    let fc := bool_decide (headers r2 !! "x-cache-status" = Some "update") in
    sc ← await_serveCache key fc;
    if stop sc then log (status_label (status sc))
    else
      when (bool_decide (status sc = stale))
           (log (status_label (status sc)));;
      renderAndWrite key (status sc) (m_ttl mr).

End Handler.

(** The world in which the listener starts on request [r]: the store and
    the lock set as earlier requests left them, nothing called yet. *)
Definition incoming (r : IncomingMessage)
    (store : gmap string (Buffer * number)) (lock : gset string) : World :=
  {| req := r; cache := store; SYNC_LOCK := lock; trace := [] |}.

(** The world the listener leaves behind. *)
Definition handle (E : Externals) (conf : HandlerConfig) (w : World) : World :=
  (wrap E conf w).2.

(** ** A concrete runtime, to run the listener on examples *)

Module Fixture.

(** Splits [s] at the first occurrence of [c]; the second component is
    [None] when [c] does not occur. *)
Fixpoint split_once (c : Ascii.ascii) (s : string) : string * option string :=
  match s with
  | EmptyString => (EmptyString, None)
  | String a s' =>
      if Ascii.eqb a c then (EmptyString, Some s')
      else let '(l, r) := split_once c s' in (String a l, r)
  end.

(** Splits [s] at every occurrence of [c]. *)
Fixpoint split_all (c : Ascii.ascii) (s : string) : list string :=
  match s with
  | EmptyString => [EmptyString]
  | String a s' =>
      if Ascii.eqb a c then EmptyString :: split_all c s'
      else match split_all c s' with
           | [] => [String a EmptyString]
           | p :: ps => String a p :: ps
           end
  end.

Fixpoint join (sep : string) (l : list string) : string :=
  match l with
  | [] => ""
  | [x] => x
  | x :: l' => x +:+ sep +:+ join sep l'
  end.

(** Modelled from the spec: [filterUrl] of [./utils], which is not in
    [src/].  The [paramFilter] predicate decides by name which query
    parameters survive; without a predicate nothing is stripped.  The
    repository's test expects [/params?p1=1&p2=2] to become
    [/params?p2=2] under [p => p !== 'p1']. *)
Definition filterUrl_model (u : string) (f : option (string → bool)) : string :=
  match f with
  | None => u
  | Some keep =>
      match split_once "?"%char u with
      | (p0, None) => p0
      | (p0, Some qs) =>
          let kept :=
            List.filter (λ p, keep (split_once "="%char p).1)
                        (split_all "&"%char qs) in
          match kept with
          | [] => p0
          | _ => p0 +:+ "?" +:+ join "&" kept
          end
      end
  end.

(** Modelled from the spec: [isZipped] of [./utils], which is not in
    [src/]: whether the headers already declare a content encoding. *)
Definition isZipped_model (h : Headers) : bool :=
  bool_decide (is_Some (h !! "content-encoding")).

(** Modelled from the spec: the store's [has(key)], which classifies an
    entry as hit, stale or miss.  [expired] tells for which keys the
    recorded TTL has elapsed at the time of the request. *)
Definition has (expired : string → bool)
    (store : gmap string (Buffer * number)) (k : string) : CacheStatus :=
  match store !! k with
  | None => miss
  | Some _ => if expired k then stale else hit
  end.

(** Modelled from the spec: [serveCache] of [./cache-manager], which is
    not in [src/] (section 4.2): a forced request is answered [force]
    without serving; otherwise a hit is served and stops the request, a
    stale entry is served and does not stop it, a miss serves nothing. *)
Definition serveCache_model (expired : string → bool)
    (store : gmap string (Buffer * number)) (lock : gset string)
    (key : string) (forced : bool) (conf : HandlerConfig)
  : ServeCacheResult :=
  let payload :=
    (default [] (fst <$> store !! ("header:" +:+ key)),
     default [] (fst <$> store !! ("body:" +:+ key))) in
  if forced then {| status := force; stop := false; served := [] |}
  else match has expired store ("body:" +:+ key) with
       | hit => {| status := hit; stop := true; served := [payload] |}
       | stale => {| status := stale; stop := false; served := [payload] |}
       | _ => {| status := miss; stop := false; served := [] |}
       end.

(** A stand-in for the regular-expression engine on patterns without
    metacharacters: an unanchored literal matches exactly the strings
    that contain it. *)
Definition literal_test (pattern s : string) : bool :=
  match String.index 0 pattern s with Some _ => true | None => false end.

(** Stand-ins for zlib and [JSON.stringify], enough to tell the stored
    values apart. *)
Definition gzip_stub (b : Buffer) : Buffer :=
  Byte.x1f :: Byte.x8b :: b.

Definition stringify_stub (o : Headers) : string :=
  "{" +:+ join "," (map (λ kv, kv.1 +:+ ":" +:+ kv.2) (map_to_list o))
      +:+ "}".

(** A render target in the manner of the repository's test mock: a page
    with content, a page that renders empty, a page that is gone, and a
    page whose render rejects. *)
Definition page_hello : RenderResponse :=
  {| statusCode := 200; rv_headers := {[ "x-lang" := "en" ]};
     rv_body := Buffer_from "hello" |}.

Definition page_empty : RenderResponse :=
  {| statusCode := 200; rv_headers := ∅; rv_body := [] |}.

Definition page_gone : RenderResponse :=
  {| statusCode := 404; rv_headers := ∅; rv_body := Buffer_from "gone" |}.

Definition mockRender (args : RenderArgs) : string + RenderResponse :=
  if String.eqb (path args) "/hello-boom" then inl "render failed"
  else if String.prefix "/hello-empty" (path args) then inr page_empty
  else if String.prefix "/hello-gone" (path args) then inr page_gone
  else inr page_hello.

Definition runtime (expired : string → bool) : Externals :=
  {| RegExp_test := literal_test;
     filterUrl := filterUrl_model;
     isZipped := isZipped_model;
     gzipSync := gzip_stub;
     JSON_stringify := stringify_stub;
     serveCache := serveCache_model expired;
     render := mockRender |}.

Definition fresh : string → bool := λ _, false.

(** The runtime over a store in which no TTL has elapsed yet. *)
Definition rt : Externals := runtime fresh.

(** The runtime over a store in which every TTL has elapsed. *)
Definition rt_expired : Externals := runtime (λ _, true).

Definition rule_hello : URLCacheRule := {| regex := "/hello"; ttl := 1 # 2 |}.

Definition GET (u : string) (h : Headers) : IncomingMessage :=
  {| url := u; method := "GET"; headers := h |}.

(** [{ rules: [{ regex: '/hello', ttl: 0.5 }], quiet: true }]. *)
Definition conf_hello : HandlerConfig :=
  {| quiet := true;
     rules := [ rule_hello ];
     paramFilter := None; cacheKey := None; headersFilter := None |}.

(** [{ paramFilter: p => p !== 'p1', cacheKey: req => req.url + '_001' }]
    over a rule for [/params]. *)
Definition conf_params : HandlerConfig :=
  {| quiet := true;
     rules := [ {| regex := "/params"; ttl := 60 |} ];
     paramFilter := Some (λ p, negb (String.eqb p "p1"));
     cacheKey := Some (λ r, url r +:+ "_001");
     headersFilter := None |}.

(** [{ paramFilter: p => p !== 'p1' }] over the same rule, with the
    default key. *)
Definition conf_filter : HandlerConfig :=
  {| quiet := true;
     rules := [ {| regex := "/params"; ttl := 60 |} ];
     paramFilter := Some (λ p, negb (String.eqb p "p1"));
     cacheKey := None;
     headersFilter := None |}.

Definition forced : Headers := {[ "x-cache-status" := "update" ]}.

Definition DELETE (u : string) : IncomingMessage :=
  {| url := u; method := "DELETE"; headers := ∅ |}.

(** A store that already holds a page under [key]. *)
Definition store_holding (key : string) : gmap string (Buffer * number) :=
  {[ "body:" +:+ key := (gzip_stub (Buffer_from "old"), 1 # 2);
     "header:" +:+ key := (Buffer_from "{}", 1 # 2) ]}.

(** A rule whose pattern is empty, which matches every string. *)
Definition conf_any : HandlerConfig :=
  {| quiet := true;
     rules := [ {| regex := ""; ttl := 60 |} ];
     paramFilter := None; cacheKey := None; headersFilter := None |}.


(** [conf_hello] with one more rule after the first. *)
Definition conf_two : HandlerConfig :=
  {| quiet := true;
     rules := [ rule_hello; {| regex := "/"; ttl := 5 |} ];
     paramFilter := None; cacheKey := None; headersFilter := None |}.

(** [{ cacheKey: () => 'k' }]: every request shares one key. *)
Definition conf_const : HandlerConfig :=
  {| quiet := true;
     rules := [ rule_hello ];
     paramFilter := None; cacheKey := Some (λ _, "k");
     headersFilter := None |}.

(** [{ rules: [{ regex: 'x=1&y=2', ttl: 60 }], paramFilter: p => p !== 'p1' }]:
    a pattern that spans the place of a filtered parameter. *)
Definition conf_xy : HandlerConfig :=
  {| quiet := true;
     rules := [ {| regex := "x=1&y=2"; ttl := 60 |} ];
     paramFilter := Some (λ p, negb (String.eqb p "p1"));
     cacheKey := None;
     headersFilter := None |}.

End Fixture.

(** ** Names for the listener's locals *)

Section Locals.

Context (E : Externals) (conf : HandlerConfig).

(** The request object between lines 81 and 87, while [req.url] holds
    the filtered URL. *)
Definition filtered (r : IncomingMessage) : IncomingMessage :=
  {| url := filterUrl E (url r) (paramFilter conf);
     method := method r; headers := headers r |}.

(** The value bound to [key] on line 82. *)
Definition keyOf (r : IncomingMessage) : string :=
  match cacheKey conf with
  | Some builder => builder (filtered r)
  | None => url (filtered r)
  end.

(** The value bound to [fc] on line 92. *)
Definition forcedFlag (r : IncomingMessage) : bool :=
  bool_decide (headers r !! "x-cache-status" = Some "update").

(** The argument object built on line 108. *)
Definition renderArgs (r : IncomingMessage) : RenderArgs :=
  {| path := url r; r_headers := headers r; r_method := method r |}.

(** What [serveCache] answers to the request [r] arriving on the given
    store and lock set. *)
Definition resolved (r : IncomingMessage)
    (store : gmap string (Buffer * number)) (lock : gset string)
  : ServeCacheResult :=
  serveCache E store lock (keyOf r) (forcedFlag r) conf.

(** The locals [headersToSave] and [buf] of lines 119-125. *)
Definition headersToSave (rv : RenderResponse) : Headers :=
  match headersFilter conf with
  | Some f => f (rv_headers rv)
  | None => rv_headers rv
  end.

Definition buf (rv : RenderResponse) : Buffer :=
  if isZipped E (headersToSave rv) then rv_body rv
  else gzipSync E (rv_body rv).

(** The events of the calls made on lines 82, 94 and 102-116. *)
Definition keyEvents (r : IncomingMessage) : list Event :=
  match cacheKey conf with
  | Some _ => [CallCacheKey (filtered r)]
  | None => []
  end.

Definition servedEvents (sc : ServeCacheResult) : list Event :=
  map (λ p, ServeCached p.1 p.2) (served sc).

Definition logEvents (label u : string) : list Event :=
  if quiet conf then [] else [Log label u].

Definition serveEvents (st : CacheStatus) (rv : RenderResponse)
  : list Event :=
  if bool_decide (st = stale) then [] else [Serve rv].

(** The world once the render has resolved to [rv] and lines 106-116
    have run. *)
Definition rendered (key : string) (st : CacheStatus) (rv : RenderResponse)
    (w : World) : World :=
  {| req := req w; cache := cache w;
     SYNC_LOCK := {[key]} ∪ SYNC_LOCK w;
     trace := trace w ++
       LockAdd key :: CallRender (renderArgs (req w)) ::
       serveEvents st rv ++
       logEvents
         (if bool_decide (st = stale) then "update" else status_label st)
         (url (req w)) |}.

(** The world in which line 106 is reached: the request object restored,
    the key derived, [serveCache] consulted without stopping. *)
Definition resolvedWorld (w : World) : World :=
  let sc := resolved (req w) (cache w) (SYNC_LOCK w) in
  {| req := req w; cache := cache w; SYNC_LOCK := SYNC_LOCK w;
     trace := trace w ++ keyEvents (req w) ++
       CallServeCache (keyOf (req w)) (forcedFlag (req w)) ::
       servedEvents sc ++
       (if bool_decide (status sc = stale)
        then logEvents (status_label (status sc)) (url (req w))
        else []) |}.

End Locals.

(** Writes to the response object: by [serve] or by [serveCache]. *)
Definition isResponseWrite (e : Event) : bool :=
  match e with
  | Serve _ | ServeCached _ _ => true
  | _ => false
  end.

Definition responseWrites (tr : list Event) : nat :=
  length (List.filter isResponseWrite tr).

(** Operations on the store or on the lock set. *)
Definition isStoreWrite (e : Event) : bool :=
  match e with
  | CacheSet _ _ _ | CacheDel _ => true
  | _ => false
  end.

Definition isLockAdd (e : Event) : bool :=
  match e with
  | LockAdd _ => true
  | _ => false
  end.

(** Calls to the renderer, and log lines. *)
Definition isRenderCall (e : Event) : bool :=
  match e with
  | CallRender _ => true
  | _ => false
  end.

Definition isLog (e : Event) : bool :=
  match e with
  | Log _ _ => true
  | _ => false
  end.

(** Operations on the lock set, [add] or [delete]. *)
Definition isLockOp (e : Event) : bool :=
  match e with
  | LockAdd _ | LockDelete _ => true
  | _ => false
  end.

(** Unfolds the monad and its primitive operations. *)
Ltac run :=
  cbv beta iota zeta delta
    [mbind Async_bind mret Async_ret emit get_req set_url cache_set cache_del
     lock_add lock_delete when reject log await_render await_serveCache
     buildKey];
  cbn [req cache SYNC_LOCK trace url method headers negb].

(** Splits a membership hypothesis over an appended trace into its cases
    and closes those that name an event of another kind. *)
Ltac event_cases H :=
  repeat (rewrite ?elem_of_app, ?elem_of_cons, ?elem_of_nil in H);
  destruct_or! H; try done; try discriminate H.

(** * Properties *)

(** ** [indexOf] *)

Lemma indexOf_from_absent (i : Z) (l : list string) (x : string) :
  0 ≤ i → indexOf_from i l x = -1 ↔ x ∉ l.
Proof.
  revert i; induction l as [|y l IH]; intros i Hi; simpl.
  - split; [intros _; apply not_elem_of_nil|done].
  - destruct (String.eqb_spec y x) as [->|Hne].
    + split; [lia|]. intros Hx. exfalso. apply Hx. left.
    + rewrite IH by lia. rewrite not_elem_of_cons. intuition congruence.
Qed.

Lemma indexOf_absent (l : list string) (x : string) :
  indexOf l x = -1 ↔ x ∉ l.
Proof. by apply indexOf_from_absent. Qed.

(** ** The classifier *)

Section ClassifierFacts.

Context (E : Externals) (conf : HandlerConfig).

Lemma matchRule_wrong_method (r : IncomingMessage) :
  method r ∉ ["GET"; "HEAD"] →
  matchRule E conf r = {| matched := false; m_ttl := (-1)%Q |}.
Proof.
  intros Hm. unfold matchRule.
  apply indexOf_absent in Hm. by rewrite Hm.
Qed.

Lemma matchRule_right_method (r : IncomingMessage) :
  method r ∈ ["GET"; "HEAD"] →
  matchRule E conf r = matchRule_rules E (rules conf) r.
Proof.
  intros Hm. unfold matchRule.
  destruct (Z.eqb_spec (indexOf ["GET"; "HEAD"] (method r)) (-1)) as [Hi|];
    [|done].
  by apply indexOf_absent in Hi.
Qed.

(** The loop skips the rules that fail and stops at the first that
    passes. *)
Lemma matchRule_rules_first (r : IncomingMessage)
    (pre post : list URLCacheRule) (rule : URLCacheRule) :
  Forall (λ x, truthy (url r) && RegExp_test E (regex x) (url r) = false)
         pre →
  truthy (url r) && RegExp_test E (regex rule) (url r) = true →
  matchRule_rules E (pre ++ rule :: post) r
  = {| matched := true; m_ttl := ttl rule |}.
Proof.
  intros Hpre Hrule. induction Hpre as [|x pre Hx _ IH]; simpl.
  - by rewrite Hrule.
  - by rewrite Hx.
Qed.

Lemma matchRule_rules_none (r : IncomingMessage) (rs : list URLCacheRule) :
  Forall (λ x, truthy (url r) && RegExp_test E (regex x) (url r) = false)
         rs →
  matchRule_rules E rs r = {| matched := false; m_ttl := 0%Q |}.
Proof.
  induction 1 as [|x rs Hx _ IH]; simpl; [done|]. by rewrite Hx.
Qed.

(** A match comes from a rule of the list that passes the test. *)
Lemma matchRule_rules_matched (r : IncomingMessage) (rs : list URLCacheRule) :
  matched (matchRule_rules E rs r) = true →
  ∃ rule, rule ∈ rs ∧ RegExp_test E (regex rule) (url r) = true
          ∧ m_ttl (matchRule_rules E rs r) = ttl rule.
Proof.
  induction rs as [|x rs IH]; simpl; [done|].
  destruct (truthy (url r) && RegExp_test E (regex x) (url r)) eqn:Hx.
  - intros _. exists x. apply andb_true_iff in Hx as [_ Hx].
    split; [left|done].
  - intros [rule (Hin & ? & ?)]%IH. exists rule. split; [by right|done].
Qed.

Lemma truthy_nonempty (s : string) : s ≠ "" → truthy s = true.
Proof.
  intros Hs. unfold truthy. by destruct (String.eqb_spec s "").
Qed.

(** The guard [req.url &&] of line 19: on an empty URL no rule is tried. *)
Lemma matchRule_empty_url (r : IncomingMessage) :
  url r = "" → matched (matchRule E conf r) = false.
Proof.
  intros Hurl. destruct (decide (method r ∈ ["GET"; "HEAD"])) as [Hin|Hout];
    [|by rewrite matchRule_wrong_method].
  rewrite matchRule_right_method by done.
  rewrite matchRule_rules_none; [done|].
  apply Forall_forall. intros x _. by rewrite Hurl.
Qed.

(** C7. For a GET or HEAD request (carrying, as every request a server
    receives does, a non-empty URL), [matchRule] tries the configured
    rules in order and answers [matched = true] with the TTL of the first
    rule whose pattern matches the URL; when no pattern matches, or when
    the method is neither GET nor HEAD, it answers [matched = false]. *)
Theorem matchRule_first_match (r : IncomingMessage) :
  url r ≠ "" →
  (method r ∈ ["GET"; "HEAD"] →
   ∀ (pre : list URLCacheRule) rule post,
     rules conf = (pre ++ rule :: post) →
     Forall (λ x, RegExp_test E (regex x) (url r) = false) pre →
     RegExp_test E (regex rule) (url r) = true →
     matchRule E conf r = {| matched := true; m_ttl := ttl rule |})
  ∧ (method r ∈ ["GET"; "HEAD"] →
     Forall (λ x, RegExp_test E (regex x) (url r) = false) (rules conf) →
     matched (matchRule E conf r) = false)
  ∧ (method r ∉ ["GET"; "HEAD"] → matched (matchRule E conf r) = false).
Proof.
  intros Hurl. apply truthy_nonempty in Hurl. split_and!.
  - intros Hm pre rule post Hrules Hpre Hrule.
    rewrite matchRule_right_method, Hrules by done.
    apply matchRule_rules_first.
    + eapply Forall_impl; [exact Hpre|]. intros x Hx; simpl in Hx.
      by rewrite Hx, andb_false_r.
    + by rewrite Hurl, Hrule.
  - intros Hm Hnone. rewrite matchRule_right_method by done.
    rewrite matchRule_rules_none; [done|].
    eapply Forall_impl; [exact Hnone|]. intros x Hx; simpl in Hx.
    by rewrite Hx, andb_false_r.
  - intros Hm. by rewrite matchRule_wrong_method.
Qed.

End ClassifierFacts.

(** ** The store block (lines 118-132) *)

Section ListenerFacts.

Context (E : Externals) (conf : HandlerConfig).

Lemma cacheable_true (rv : RenderResponse) :
  statusCode rv = 200 → rv_body rv ≠ [] →
  Z.eqb (statusCode rv) 200 && Nat.ltb 0 (length (rv_body rv)) = true.
Proof.
  intros -> Hbody. destruct (rv_body rv); [done|reflexivity].
Qed.

Lemma cacheable_false (rv : RenderResponse) :
  ¬ (statusCode rv = 200 ∧ rv_body rv ≠ []) →
  Z.eqb (statusCode rv) 200 && Nat.ltb 0 (length (rv_body rv)) = false.
Proof.
  intros Hno. apply not_true_is_false. intros Hc. apply Hno.
  apply andb_true_iff in Hc as [H200 Hlen]. split.
  - by apply Z.eqb_eq.
  - intros Hnil. by rewrite Hnil in Hlen.
Qed.

Lemma persist_cacheable key st t rv w :
  statusCode rv = 200 → rv_body rv ≠ [] →
  persist E conf key st t rv w =
  (Normal (),
   {| req := req w;
      cache :=
        <["header:" +:+ key := (toBuffer E (headersToSave conf rv), t)]>
          (<["body:" +:+ key := (buf E conf rv, t)]> (cache w));
      SYNC_LOCK := SYNC_LOCK w;
      trace := trace w ++
        [CacheSet ("body:" +:+ key) (buf E conf rv) t;
         CacheSet ("header:" +:+ key)
                  (toBuffer E (headersToSave conf rv)) t] |}).
Proof.
  intros H200 Hbody. unfold persist.
  rewrite cacheable_true by done.
  destruct w as [r c l tr]. run.
  rewrite <- app_assoc. reflexivity.
Qed.

Lemma persist_purge key t rv w :
  ¬ (statusCode rv = 200 ∧ rv_body rv ≠ []) →
  persist E conf key force t rv w =
  (Normal (),
   {| req := req w;
      cache := delete ("header:" +:+ key)
                      (delete ("body:" +:+ key) (cache w));
      SYNC_LOCK := SYNC_LOCK w;
      trace := trace w ++
        [CacheDel ("body:" +:+ key); CacheDel ("header:" +:+ key)] |}).
Proof.
  intros Hno. unfold persist. rewrite cacheable_false by done.
  destruct w as [r c l tr]. run.
  rewrite bool_decide_eq_true_2 by done.
  rewrite <- app_assoc. reflexivity.
Qed.

Lemma persist_skip key st t rv w :
  ¬ (statusCode rv = 200 ∧ rv_body rv ≠ []) → st ≠ force →
  persist E conf key st t rv w = (Normal (), w).
Proof.
  intros Hno Hst. unfold persist. rewrite cacheable_false by done.
  by rewrite bool_decide_eq_false_2.
Qed.

(** The store block never throws and leaves the request object and the
    lock set alone. *)
Lemma persist_frame key st t rv w :
  (persist E conf key st t rv w).1 = Normal ()
  ∧ req (persist E conf key st t rv w).2 = req w
  ∧ SYNC_LOCK (persist E conf key st t rv w).2 = SYNC_LOCK w.
Proof.
  destruct (decide (statusCode rv = 200 ∧ rv_body rv ≠ [])) as [[? ?]|Hno].
  - by rewrite persist_cacheable.
  - destruct (decide (st = force)) as [->|Hst].
    + by rewrite persist_purge.
    + by rewrite persist_skip.
Qed.

(** ** The render-and-write block (lines 106-134) *)

Lemma renderAndWrite_rejected key st t w reason :
  render E (renderArgs (req w)) = inl reason →
  renderAndWrite E conf key st t w =
  (Throw reason,
   {| req := req w; cache := cache w;
      SYNC_LOCK := {[key]} ∪ SYNC_LOCK w;
      trace := trace w ++
        [LockAdd key; CallRender (renderArgs (req w))] |}).
Proof.
  intros Hr. destruct w as [r c l tr]. unfold renderAndWrite. run.
  fold (renderArgs r). simpl in Hr. rewrite Hr.
  rewrite <- app_assoc. reflexivity.
Qed.

Lemma renderAndWrite_resolved key st t w rv :
  render E (renderArgs (req w)) = inr rv →
  renderAndWrite E conf key st t w =
  lock_delete key (persist E conf key st t rv (rendered conf key st rv w)).2.
Proof.
  intros Hr. destruct w as [r c l tr].
  unfold renderAndWrite, rendered, serveEvents, logEvents. run.
  fold (renderArgs r). simpl in Hr. rewrite Hr.
  destruct (bool_decide (st = stale)), (quiet conf); run;
    rewrite <- ?app_assoc; cbn [app];
    match goal with
    | |- context [persist E conf key st t rv ?w1] =>
        pose proof (persist_frame key st t rv w1) as (Hn & _);
        destruct (persist E conf key st t rv w1) as [c2 w2]
    end; simpl in Hn; subst c2; reflexivity.
Qed.

(** ** The listener *)

Lemma restore_req (r : IncomingMessage) :
  {| url := url r; method := method r; headers := headers r |} = r.
Proof. by destruct r. Qed.

Lemma wrap_unmatched w :
  matched (matchRule E conf (filtered E conf (req w))) = false →
  wrap E conf w =
  (Normal (),
   {| req := req w; cache := cache w; SYNC_LOCK := SYNC_LOCK w;
      trace := trace w ++ keyEvents E conf (req w) ++
               [CallPlainHandler (req w)] |}).
Proof.
  intros Hm. destruct w as [r c l tr]. simpl in Hm.
  unfold wrap, keyEvents, filtered in *. run.
  destruct (cacheKey conf) as [builder|]; run;
    rewrite Hm; run; rewrite restore_req, <- ?app_assoc; reflexivity.
Qed.

(** Past the classifier, the listener consults [serveCache] on the
    restored request; when that does not stop it, it goes on with the
    render-and-write block. *)
Lemma wrap_stopped w :
  let sc := resolved E conf (req w) (cache w) (SYNC_LOCK w) in
  matched (matchRule E conf (filtered E conf (req w))) = true →
  stop sc = true →
  wrap E conf w =
  (Normal (),
   {| req := req w; cache := cache w; SYNC_LOCK := SYNC_LOCK w;
      trace := trace w ++ keyEvents E conf (req w) ++
        CallServeCache (keyOf E conf (req w)) (forcedFlag (req w)) ::
        servedEvents sc ++
        logEvents conf (status_label (status sc)) (url (req w)) |}).
Proof.
  intros sc Hm Hstop. subst sc. destruct w as [r c l tr].
  simpl in Hm, Hstop. unfold resolved, keyOf, forcedFlag in *.
  unfold wrap, keyEvents, servedEvents, logEvents, filtered in *. run.
  destruct (cacheKey conf) as [builder|]; run;
    cbn [url method headers] in *;
    rewrite Hm; run; rewrite restore_req; cbn [headers];
    rewrite Hstop; run;
    destruct (quiet conf); run;
    rewrite <- ?app_assoc; cbn [app]; rewrite ?app_nil_r; reflexivity.
Qed.

Lemma wrap_rendering w :
  let sc := resolved E conf (req w) (cache w) (SYNC_LOCK w) in
  matched (matchRule E conf (filtered E conf (req w))) = true →
  stop sc = false →
  wrap E conf w =
  renderAndWrite E conf (keyOf E conf (req w)) (status sc)
    (m_ttl (matchRule E conf (filtered E conf (req w))))
    (resolvedWorld E conf w).
Proof.
  intros sc Hm Hstop. subst sc. destruct w as [r c l tr].
  simpl in Hm, Hstop. unfold resolvedWorld, resolved, keyOf, forcedFlag in *.
  unfold wrap, keyEvents, servedEvents, logEvents, filtered in *. run.
  destruct (cacheKey conf) as [builder|]; run;
    cbn [url method headers] in *;
    rewrite Hm; run; rewrite restore_req; cbn [headers];
    rewrite Hstop; run;
    destruct (bool_decide (status _ = stale)); run;
    destruct (quiet conf); run;
    rewrite <- ?app_assoc; cbn [app]; rewrite ?app_nil_r; reflexivity.
Qed.

(** What the store block appends to the trace are store operations. *)
Lemma persist_trace key st t rv w :
  ∃ evs, trace (persist E conf key st t rv w).2 = trace w ++ evs
         ∧ Forall (λ e, isStoreWrite e = true) evs.
Proof.
  destruct (decide (statusCode rv = 200 ∧ rv_body rv ≠ [])) as [[? ?]|Hno].
  - rewrite persist_cacheable by done. eexists. split; [reflexivity|].
    by repeat constructor.
  - destruct (decide (st = force)) as [->|Hst].
    + rewrite persist_purge by done. eexists. split; [reflexivity|].
      by repeat constructor.
    + rewrite persist_skip by done. exists []. by rewrite app_nil_r.
Qed.

(** The three ways a matched request ends. *)
Lemma handle_stopped w :
  let sc := resolved E conf (req w) (cache w) (SYNC_LOCK w) in
  matched (matchRule E conf (filtered E conf (req w))) = true →
  stop sc = true →
  handle E conf w =
  {| req := req w; cache := cache w; SYNC_LOCK := SYNC_LOCK w;
     trace := trace w ++ keyEvents E conf (req w) ++
       CallServeCache (keyOf E conf (req w)) (forcedFlag (req w)) ::
       servedEvents sc ++
       logEvents conf (status_label (status sc)) (url (req w)) |}.
Proof. intros sc Hm Hstop. unfold handle. by rewrite wrap_stopped. Qed.

Lemma wrap_rejected w reason :
  let sc := resolved E conf (req w) (cache w) (SYNC_LOCK w) in
  matched (matchRule E conf (filtered E conf (req w))) = true →
  stop sc = false →
  render E (renderArgs (req w)) = inl reason →
  wrap E conf w =
  (Throw reason,
   {| req := req w; cache := cache w;
      SYNC_LOCK := {[keyOf E conf (req w)]} ∪ SYNC_LOCK w;
      trace := trace (resolvedWorld E conf w) ++
        [LockAdd (keyOf E conf (req w)); CallRender (renderArgs (req w))] |}).
Proof.
  intros sc Hm Hstop Hr. rewrite wrap_rendering by done.
  by rewrite (renderAndWrite_rejected _ _ _ _ reason).
Qed.

Lemma wrap_resolved w rv :
  let sc := resolved E conf (req w) (cache w) (SYNC_LOCK w) in
  let key := keyOf E conf (req w) in
  let t := m_ttl (matchRule E conf (filtered E conf (req w))) in
  matched (matchRule E conf (filtered E conf (req w))) = true →
  stop sc = false →
  render E (renderArgs (req w)) = inr rv →
  wrap E conf w =
  lock_delete key
    (persist E conf key (status sc) t rv
       (rendered conf key (status sc) rv (resolvedWorld E conf w))).2.
Proof.
  intros sc key t Hm Hstop Hr. rewrite wrap_rendering by done.
  by rewrite (renderAndWrite_resolved _ _ _ _ rv).
Qed.

(** On that last path the listener returns normally, with the request
    object restored, the lock set as it found it but for [key], and a
    trace that ends with the store operations and the release. *)
Lemma handle_resolved w rv :
  let sc := resolved E conf (req w) (cache w) (SYNC_LOCK w) in
  let key := keyOf E conf (req w) in
  let t := m_ttl (matchRule E conf (filtered E conf (req w))) in
  let w1 := rendered conf key (status sc) rv (resolvedWorld E conf w) in
  matched (matchRule E conf (filtered E conf (req w))) = true →
  stop sc = false →
  render E (renderArgs (req w)) = inr rv →
  (wrap E conf w).1 = Normal ()
  ∧ req (handle E conf w) = req w
  ∧ cache (handle E conf w)
    = cache (persist E conf key (status sc) t rv w1).2
  ∧ SYNC_LOCK (handle E conf w) = ({[key]} ∪ SYNC_LOCK w) ∖ {[key]}
  ∧ trace (handle E conf w)
    = trace (persist E conf key (status sc) t rv w1).2 ++ [LockDelete key].
Proof.
  intros sc key t w1 Hm Hstop Hr. unfold handle.
  rewrite (wrap_resolved w rv) by done. fold sc key t w1.
  destruct (persist_frame key (status sc) t rv w1) as (_ & Hreq & Hlock).
  unfold lock_delete; cbn [fst snd req cache SYNC_LOCK trace].
  by rewrite Hreq, Hlock.
Qed.

(** ** Which events a trace holds *)

Lemma in_keyEvents e r :
  e ∈ keyEvents E conf r →
  e = CallCacheKey (filtered E conf r) ∧ is_Some (cacheKey conf).
Proof.
  unfold keyEvents. destruct (cacheKey conf) as [b|].
  - intros ->%list_elem_of_singleton. eauto.
  - by intros ?%elem_of_nil.
Qed.

Lemma in_servedEvents e sc :
  e ∈ servedEvents sc → ∃ h b, e = ServeCached h b.
Proof.
  unfold servedEvents. intros ([h b] & -> & _)%list_elem_of_fmap. eauto.
Qed.

Lemma in_logEvents e label u :
  e ∈ logEvents conf label u → e = Log label u.
Proof.
  unfold logEvents. destruct (quiet conf).
  - by intros ?%elem_of_nil.
  - by intros ->%list_elem_of_singleton.
Qed.

Lemma in_serveEvents e st rv :
  e ∈ serveEvents st rv ↔ e = Serve rv ∧ st ≠ stale.
Proof.
  unfold serveEvents. case_bool_decide as Hst.
  - rewrite elem_of_nil. split; [done|]. by intros [_ ?].
  - rewrite list_elem_of_singleton. split; [by intros ->|by intros [-> _]].
Qed.

Lemma in_storeWrites e evs :
  Forall (λ e, isStoreWrite e = true) evs → e ∈ evs →
  isStoreWrite e = true.
Proof. intros Hall He. by eapply Forall_forall in Hall. Qed.

Lemma resolved_trace w rv :
  let sc := resolved E conf (req w) (cache w) (SYNC_LOCK w) in
  let key := keyOf E conf (req w) in
  matched (matchRule E conf (filtered E conf (req w))) = true →
  stop sc = false →
  render E (renderArgs (req w)) = inr rv →
  ∃ evs,
    Forall (λ e, isStoreWrite e = true) evs
    ∧ trace (persist E conf key (status sc)
               (m_ttl (matchRule E conf (filtered E conf (req w)))) rv
               (rendered conf key (status sc) rv (resolvedWorld E conf w))).2
      = trace (rendered conf key (status sc) rv (resolvedWorld E conf w))
        ++ evs
    ∧ trace (handle E conf w) =
      trace w ++ keyEvents E conf (req w) ++
      CallServeCache key (forcedFlag (req w)) ::
      servedEvents sc ++
      (if bool_decide (status sc = stale)
       then logEvents conf (status_label (status sc)) (url (req w))
       else []) ++
      LockAdd key :: CallRender (renderArgs (req w)) ::
      serveEvents (status sc) rv ++
      logEvents conf
        (if bool_decide (status sc = stale) then "update"
         else status_label (status sc))
        (url (req w)) ++
      evs ++ [LockDelete key].
Proof.
  intros sc key Hm Hstop Hr.
  destruct (handle_resolved w rv Hm Hstop Hr) as (_ & _ & _ & _ & ->).
  fold sc key.
  destruct (persist_trace key (status sc)
              (m_ttl (matchRule E conf (filtered E conf (req w)))) rv
              (rendered conf key (status sc) rv (resolvedWorld E conf w)))
    as (evs & Htr & Hevs).
  exists evs. split_and!; [done|done|]. rewrite Htr.
  unfold rendered, resolvedWorld. cbn [trace req]. fold sc key.
  rewrite <- !app_assoc. cbn [app]. rewrite <- !app_assoc. reflexivity.
Qed.

(** ** Requests outside the cached rule set *)

Lemma unmatched_of (r : IncomingMessage) :
  method r ∉ ["GET"; "HEAD"]
  ∨ Forall (λ x, RegExp_test E (regex x)
                   (filterUrl E (url r) (paramFilter conf)) = false)
           (rules conf) →
  matched (matchRule E conf (filtered E conf r)) = false.
Proof.
  intros [Hm|Hnone].
  - by rewrite matchRule_wrong_method.
  - destruct (decide (method r ∈ ["GET"; "HEAD"])) as [Hin|Hout];
      [|by rewrite matchRule_wrong_method].
    rewrite matchRule_right_method by done.
    rewrite matchRule_rules_none; [done|].
    eapply Forall_impl; [exact Hnone|]. intros x Hx; simpl in *.
    by rewrite Hx, andb_false_r.
Qed.

(** C9, as the code has it. A request whose method is neither GET nor
    HEAD, or whose URL with the parameter filter applied -- the URL
    [matchRule] is given, line 81 coming before line 83 -- matches no
    configured rule, is handed to the plain handler: the listener returns
    after that one call, performs no [set] and no [del] on the store,
    never adds to the lock set, and leaves both as it found them. *)
Theorem unmatched_request_bypasses_cache r store lock :
  method r ∉ ["GET"; "HEAD"]
  ∨ Forall (λ x, RegExp_test E (regex x)
                   (filterUrl E (url r) (paramFilter conf)) = false)
           (rules conf) →
  let w := handle E conf (incoming r store lock) in
  (wrap E conf (incoming r store lock)).1 = Normal ()
  ∧ trace w = keyEvents E conf r ++ [CallPlainHandler r]
  ∧ Forall (λ e, isStoreWrite e = false ∧ isLockAdd e = false) (trace w)
  ∧ cache w = store
  ∧ SYNC_LOCK w = lock.
Proof.
  intros Hun w. apply unmatched_of in Hun. subst w. unfold handle.
  rewrite wrap_unmatched by done. cbn [fst snd trace cache SYNC_LOCK
    incoming req app]. split_and!; try done.
  apply Forall_forall. intros e [He| ->%list_elem_of_singleton]%elem_of_app;
    [|done].
  by apply in_keyEvents in He as [-> _].
Qed.

(** ** The calls a matched request makes *)

(** Past the key derivation, a matched request calls [serveCache] once,
    with the key and the forced flag; whatever follows holds no further
    call to the key builder, the plain handler or [serveCache], and
    renders, if at all, from the restored request. *)
Lemma matched_trace w :
  matched (matchRule E conf (filtered E conf (req w))) = true →
  ∃ tail,
    trace (handle E conf w) =
      trace w ++ keyEvents E conf (req w) ++
      CallServeCache (keyOf E conf (req w)) (forcedFlag (req w)) :: tail
    ∧ (∀ k f, CallServeCache k f ∉ tail)
    ∧ (∀ r', CallCacheKey r' ∉ tail)
    ∧ (∀ r', CallPlainHandler r' ∉ tail)
    ∧ (∀ args, CallRender args ∈ tail → args = renderArgs (req w)).
Proof.
  intros Hm.
  set (sc := resolved E conf (req w) (cache w) (SYNC_LOCK w)).
  destruct (stop sc) eqn:Hstop.
  - rewrite handle_stopped by done. fold sc. eexists. split; [reflexivity|].
    split_and!; [intros k f He|intros r' He|intros r' He|intros args He];
        event_cases He;
      try (apply in_servedEvents in He as (? & ? & ?); discriminate);
      try (apply in_logEvents in He; discriminate).
  - destruct (render E (renderArgs (req w))) as [reason|rv] eqn:Hr.
    + unfold handle. rewrite (wrap_rejected w reason) by done.
      unfold resolvedWorld. cbn [snd trace]. fold sc.
      rewrite <- !app_assoc. cbn [app]. rewrite <- !app_assoc.
      eexists. split; [reflexivity|].
      case_bool_decide;
      (split_and!;
         [intros k f He|intros r' He|intros r' He|intros args He]);
        event_cases He;
        try (apply in_servedEvents in He as (? & ? & ?); discriminate);
        try (apply in_logEvents in He; discriminate);
        try (by injection He as ->).
    + destruct (resolved_trace w rv Hm Hstop Hr) as (evs & Hevs & _ & ->).
      fold sc. eexists. split; [reflexivity|].
      case_bool_decide;
      (split_and!;
         [intros k f He|intros r' He|intros r' He|intros args He]);
        event_cases He;
        try (apply in_servedEvents in He as (? & ? & ?); discriminate);
        try (apply in_logEvents in He; discriminate);
        try (apply in_serveEvents in He as [? _]; discriminate);
        try (apply (in_storeWrites _ _ Hevs) in He; discriminate);
        try (by injection He as ->).
Qed.

(** On every path the request object ends up as it was received. *)
Lemma handle_req w : req (handle E conf w) = req w.
Proof.
  destruct (matched (matchRule E conf (filtered E conf (req w)))) eqn:Hm.
  - set (sc := resolved E conf (req w) (cache w) (SYNC_LOCK w)).
    destruct (stop sc) eqn:Hstop; [by rewrite handle_stopped|].
    destruct (render E (renderArgs (req w))) as [reason|rv] eqn:Hr.
    + unfold handle. by rewrite (wrap_rejected w reason).
    + by destruct (handle_resolved w rv Hm Hstop Hr) as (_ & -> & _).
  - unfold handle. by rewrite wrap_unmatched.
Qed.

(** C10. For every matched request the listener calls [serveCache], and
    the forced flag it passes is [true] exactly when the request header
    [x-cache-status] is present with the value [update]; any other value,
    or no such header, gives [false]. *)
Theorem forced_flag_iff_update_header r store lock :
  matched (matchRule E conf (filtered E conf r)) = true →
  let w := handle E conf (incoming r store lock) in
  (∃ key fc, CallServeCache key fc ∈ trace w)
  ∧ (∀ key fc, CallServeCache key fc ∈ trace w →
       fc = true ↔ headers r !! "x-cache-status" = Some "update").
Proof.
  intros Hm w.
  destruct (matched_trace (incoming r store lock) Hm)
    as (tail & Htr & Hsc & _).
  subst w. rewrite Htr. cbn [incoming trace req app]. split.
  - eexists _, _. apply elem_of_app. right. left.
  - intros key fc He. event_cases He.
    + by apply in_keyEvents in He as [? _].
    + injection He as -> ->. unfold forcedFlag.
      apply bool_decide_eq_true.
    + by apply Hsc in He.
Qed.

(** C4. The default cache key of a matched request is the URL with the
    parameter filter applied, while the render call receives the
    original URL as its path and the plain handler receives the request
    as it came in: [req.url] is back to its original value before
    either call, and stays so. *)
Theorem key_from_filtered_url_render_from_original r store lock :
  let w := handle E conf (incoming r store lock) in
  (matched (matchRule E conf (filtered E conf r)) = true →
   cacheKey conf = None →
   ∃ fc tail,
     trace w =
     CallServeCache (filterUrl E (url r) (paramFilter conf)) fc :: tail)
  ∧ (∀ args, CallRender args ∈ trace w →
       path args = url r ∧ args = renderArgs r)
  ∧ (∀ r', CallPlainHandler r' ∈ trace w → r' = r)
  ∧ req w = r.
Proof.
  intros w. subst w. split_and!.
  - intros Hm Hk.
    destruct (matched_trace (incoming r store lock) Hm) as (tail & -> & _).
    cbn [incoming trace req app]. unfold keyEvents, keyOf. rewrite Hk.
    simpl. eauto.
  - intros args He.
    destruct (matched (matchRule E conf (filtered E conf r))) eqn:Hm.
    + destruct (matched_trace (incoming r store lock) Hm)
        as (tail & Htr & _ & _ & _ & Hrender).
      rewrite Htr in He. cbn [incoming trace req app] in *.
      event_cases He.
      * by apply in_keyEvents in He as [? _].
      * by rewrite (Hrender _ He).
    + unfold handle in He. rewrite wrap_unmatched in He by done.
      cbn [incoming snd trace req app] in He. event_cases He.
      by apply in_keyEvents in He as [? _].
  - intros r' He.
    destruct (matched (matchRule E conf (filtered E conf r))) eqn:Hm.
    + destruct (matched_trace (incoming r store lock) Hm)
        as (tail & Htr & _ & _ & Hplain & _).
      rewrite Htr in He. cbn [incoming trace req app] in *.
      event_cases He.
      * by apply in_keyEvents in He as [? _].
      * by apply Hplain in He.
    + unfold handle in He. rewrite wrap_unmatched in He by done.
      cbn [incoming snd trace req app] in He. event_cases He.
      * by apply in_keyEvents in He as [? _].
      * by injection He.
  - apply handle_req.
Qed.

(** C3, as the code has it. A configured key builder is called once, on
    the request object while its [url] holds the filtered URL (method and
    headers as received); for a matched request the string it returns is
    the key handed to [serveCache]; the original URL is back on the
    request object when the listener is done. *)
Theorem cacheKey_builder_sees_filtered_url builder r store lock :
  cacheKey conf = Some builder →
  let w := handle E conf (incoming r store lock) in
  let seen := {| url := filterUrl E (url r) (paramFilter conf);
                 method := method r; headers := headers r |} in
  (∃ tail, trace w = CallCacheKey seen :: tail
           ∧ ∀ r', CallCacheKey r' ∉ tail)
  ∧ (matched (matchRule E conf seen) = true →
     ∃ fc tail,
       trace w = CallCacheKey seen :: CallServeCache (builder seen) fc :: tail)
  ∧ req w = r.
Proof.
  intros Hk w seen. subst w. fold (filtered E conf r) in seen. subst seen.
  split_and!.
  - destruct (matched (matchRule E conf (filtered E conf r))) eqn:Hm.
    + destruct (matched_trace (incoming r store lock) Hm)
        as (tail & -> & _ & Hkey & _).
      cbn [incoming trace req app]. unfold keyEvents. rewrite Hk.
      eexists. split; [reflexivity|]. intros r' He. event_cases He.
      by apply Hkey in He.
    + unfold handle. rewrite wrap_unmatched by done.
      cbn [incoming snd trace req app]. unfold keyEvents. rewrite Hk.
      eexists. split; [reflexivity|]. intros r' He. event_cases He.
  - intros Hm.
    destruct (matched_trace (incoming r store lock) Hm) as (tail & -> & _).
    cbn [incoming trace req app]. unfold keyEvents, keyOf. rewrite Hk.
    simpl. eauto.
  - apply handle_req.
Qed.

(** ** What the render leaves in the store *)

Lemma matchRule_matched (r : IncomingMessage) :
  matched (matchRule E conf r) = true →
  method r ∈ ["GET"; "HEAD"]
  ∧ ∃ rule, rule ∈ rules conf
            ∧ RegExp_test E (regex rule) (url r) = true
            ∧ m_ttl (matchRule E conf r) = ttl rule.
Proof.
  intros Hm. destruct (decide (method r ∈ ["GET"; "HEAD"])) as [Hin|Hout].
  - split; [done|]. rewrite matchRule_right_method in * by done.
    by apply matchRule_rules_matched.
  - by rewrite matchRule_wrong_method in Hm.
Qed.

Lemma filter_none (f : Event → bool) (l : list Event) :
  Forall (λ e, f e = false) l → List.filter f l = [].
Proof.
  induction 1 as [|e l He _ IH]; simpl; [done|]. by rewrite He.
Qed.

Lemma body_header_keys_differ (key : string) :
  "body:" +:+ key ≠ "header:" +:+ key.
Proof. discriminate. Qed.

(** Up to line 116 no store operation has been issued. *)
Lemma no_store_write_before_persist r store lock key st rv :
  Forall (λ e, isStoreWrite e = false)
    (trace (rendered conf key st rv
              (resolvedWorld E conf (incoming r store lock)))).
Proof.
  apply Forall_forall. intros e He.
  unfold rendered, resolvedWorld in He.
  cbn [incoming trace req cache SYNC_LOCK app] in He.
  case_bool_decide; event_cases He;
    try (by apply in_keyEvents in He as [-> _]);
    try (by apply in_servedEvents in He as (? & ? & ->));
    try (by apply in_logEvents in He as ->);
    try (by apply in_serveEvents in He as [-> _]);
    by subst e.
Qed.

(** C5. When the render of a matched request resolves with status code
    200 and a non-empty body, the listener writes [body:<key>] and
    [header:<key>], both with the TTL of the rule that matched, and both
    records are in the store afterwards with that TTL. *)
Theorem cacheable_render_stores_pair r store lock rv :
  matched (matchRule E conf (filtered E conf r)) = true →
  stop (resolved E conf r store lock) = false →
  render E (renderArgs r) = inr rv →
  statusCode rv = 200 →
  rv_body rv ≠ [] →
  let w := handle E conf (incoming r store lock) in
  let key := keyOf E conf r in
  let t := m_ttl (matchRule E conf (filtered E conf r)) in
  cache w !! ("body:" +:+ key) = Some (buf E conf rv, t)
  ∧ cache w !! ("header:" +:+ key)
    = Some (toBuffer E (headersToSave conf rv), t)
  ∧ CacheSet ("body:" +:+ key) (buf E conf rv) t ∈ trace w
  ∧ CacheSet ("header:" +:+ key) (toBuffer E (headersToSave conf rv)) t
    ∈ trace w
  ∧ ∃ rule, rule ∈ rules conf
            ∧ RegExp_test E (regex rule)
                (filterUrl E (url r) (paramFilter conf)) = true
            ∧ t = ttl rule.
Proof.
  intros Hm Hstop Hr H200 Hbody w key t.
  destruct (handle_resolved (incoming r store lock) rv Hm Hstop Hr)
    as (_ & _ & Hcache & _ & Htrace).
  subst w. rewrite Hcache, Htrace. clear Hcache Htrace.
  cbn [incoming req cache SYNC_LOCK]. fold key t.
  rewrite persist_cacheable by done. cbn [snd cache trace].
  split_and!.
  - rewrite lookup_insert_ne by (symmetry; apply body_header_keys_differ).
    apply lookup_insert_eq.
  - apply lookup_insert_eq.
  - rewrite !elem_of_app, !elem_of_cons. auto.
  - rewrite !elem_of_app, !elem_of_cons. auto.
  - by destruct (matchRule_matched _ Hm) as (_ & rule & ? & ? & ?); eauto.
Qed.

(** C6. When [serveCache] answers [force] and the render resolves with
    an empty body, the listener deletes [body:<key>] and [header:<key>]:
    neither record is in the store afterwards, whatever it held. *)
Theorem forced_empty_render_purges_pair r store lock rv :
  matched (matchRule E conf (filtered E conf r)) = true →
  stop (resolved E conf r store lock) = false →
  status (resolved E conf r store lock) = force →
  render E (renderArgs r) = inr rv →
  rv_body rv = [] →
  let w := handle E conf (incoming r store lock) in
  let key := keyOf E conf r in
  cache w !! ("body:" +:+ key) = None
  ∧ cache w !! ("header:" +:+ key) = None
  ∧ CacheDel ("body:" +:+ key) ∈ trace w
  ∧ CacheDel ("header:" +:+ key) ∈ trace w.
Proof.
  intros Hm Hstop Hforce Hr Hbody w key.
  destruct (handle_resolved (incoming r store lock) rv Hm Hstop Hr)
    as (_ & _ & Hcache & _ & Htrace).
  subst w. rewrite Hcache, Htrace. clear Hcache Htrace.
  cbn [incoming req cache SYNC_LOCK] in *. fold key. rewrite Hforce.
  rewrite persist_purge by (intros [_ ?]; done). cbn [snd cache trace].
  split_and!.
  - rewrite lookup_delete_ne by (symmetry; apply body_header_keys_differ).
    apply lookup_delete_eq.
  - apply lookup_delete_eq.
  - rewrite !elem_of_app, !elem_of_cons. auto.
  - rewrite !elem_of_app, !elem_of_cons. auto.
Qed.

(** C2, as the code has it. When the render resolves to anything but
    status code 200 with a non-empty body: under a status other than
    [force] the listener issues no [set] and no [del] and the store is
    unchanged; under [force] -- empty body or not -- it deletes
    [body:<key>] and [header:<key>], and those two are its only store
    operations. *)
Theorem uncacheable_outcome_store_effect r store lock rv :
  matched (matchRule E conf (filtered E conf r)) = true →
  stop (resolved E conf r store lock) = false →
  render E (renderArgs r) = inr rv →
  ¬ (statusCode rv = 200 ∧ rv_body rv ≠ []) →
  let w := handle E conf (incoming r store lock) in
  let key := keyOf E conf r in
  (status (resolved E conf r store lock) ≠ force →
   cache w = store ∧ Forall (λ e, isStoreWrite e = false) (trace w))
  ∧ (status (resolved E conf r store lock) = force →
     cache w = delete ("header:" +:+ key) (delete ("body:" +:+ key) store)
     ∧ List.filter isStoreWrite (trace w)
       = [CacheDel ("body:" +:+ key); CacheDel ("header:" +:+ key)]).
Proof.
  intros Hm Hstop Hr Hno w key.
  destruct (handle_resolved (incoming r store lock) rv Hm Hstop Hr)
    as (_ & _ & Hcache & _ & Htrace).
  subst w. rewrite Hcache, Htrace. clear Hcache Htrace.
  cbn [incoming req cache SYNC_LOCK] in *. fold key.
  pose proof (no_store_write_before_persist r store lock key
                (status (resolved E conf r store lock)) rv) as Hpre.
  split.
  - intros Hst. rewrite persist_skip by done. cbn [snd]. split; [done|].
    apply Forall_app. split; [done|]. by repeat constructor.
  - intros Hst. rewrite Hst in *. rewrite persist_purge by done.
    cbn [snd cache trace]. split; [done|].
    rewrite !List.filter_app.
    by rewrite (filter_none _ _ Hpre).
Qed.
(** ** Writes to the response *)

Lemma responseWrites_app (a b : list Event) :
  responseWrites (a ++ b) = (responseWrites a + responseWrites b)%nat.
Proof. unfold responseWrites. by rewrite List.filter_app, length_app. Qed.

Lemma responseWrites_cons (e : Event) (l : list Event) :
  responseWrites (e :: l)
  = ((if isResponseWrite e then 1 else 0) + responseWrites l)%nat.
Proof. unfold responseWrites. simpl. by destruct (isResponseWrite e). Qed.

Lemma responseWrites_none (l : list Event) :
  Forall (λ e, isResponseWrite e = false) l → responseWrites l = 0%nat.
Proof. intros Hl. unfold responseWrites. by rewrite filter_none. Qed.

Lemma responseWrites_keyEvents r : responseWrites (keyEvents E conf r) = 0%nat.
Proof. unfold keyEvents. by destruct (cacheKey conf). Qed.

Lemma responseWrites_logEvents label u :
  responseWrites (logEvents conf label u) = 0%nat.
Proof. unfold logEvents. by destruct (quiet conf). Qed.

Lemma responseWrites_servedEvents sc :
  responseWrites (servedEvents sc) = length (served sc).
Proof.
  unfold servedEvents, responseWrites.
  induction (served sc) as [|p l IH]; simpl; [done|]. by rewrite IH.
Qed.

Lemma responseWrites_serveEvents st rv :
  responseWrites (serveEvents st rv)
  = if bool_decide (st = stale) then 0%nat else 1%nat.
Proof. unfold serveEvents. by case_bool_decide. Qed.

Lemma responseWrites_storeWrites evs :
  Forall (λ e, isStoreWrite e = true) evs → responseWrites evs = 0%nat.
Proof.
  intros Hevs. apply responseWrites_none.
  eapply Forall_impl; [exact Hevs|]. by intros [].
Qed.

(** C8. Once the render of a matched request has resolved, the rendered
    response is served to the caller exactly when the status answered by
    [serveCache] is not [stale]; under [stale] the render-and-write block
    writes nothing to the response.  The response writes of the whole
    request are those of [serveCache] plus that one, so a resolver that
    serves at most once, and only when it answers hit or stale, gives at
    most one response write per request. *)
Theorem rendered_response_served_unless_stale r store lock rv :
  matched (matchRule E conf (filtered E conf r)) = true →
  stop (resolved E conf r store lock) = false →
  render E (renderArgs r) = inr rv →
  let w := handle E conf (incoming r store lock) in
  let sc := resolved E conf r store lock in
  (∀ rv', Serve rv' ∈ trace w ↔ rv' = rv ∧ status sc ≠ stale)
  ∧ responseWrites (trace w)
    = (length (served sc)
       + if bool_decide (status sc = stale) then 0 else 1)%nat
  ∧ ((length (served sc) ≤ 1)%nat →
     (status sc ≠ stale → served sc = []) →
     (responseWrites (trace w) ≤ 1)%nat).
Proof.
  intros Hm Hstop Hr w sc.
  destruct (resolved_trace (incoming r store lock) rv Hm Hstop Hr)
    as (evs & Hevs & _ & Htr).
  cbn [incoming req cache SYNC_LOCK trace app] in Htr. fold sc in Htr.
  assert (responseWrites (trace w)
    = (length (served sc)
       + if bool_decide (status sc = stale) then 0 else 1)%nat) as Hcount.
  { subst w. rewrite Htr.
    repeat (rewrite ?responseWrites_app, ?responseWrites_cons; cbn [isResponseWrite]).
    rewrite responseWrites_keyEvents, responseWrites_servedEvents,
      responseWrites_serveEvents, responseWrites_logEvents,
      (responseWrites_storeWrites _ Hevs).
    replace (responseWrites
               (if bool_decide (status sc = stale)
                then logEvents conf (status_label (status sc)) (url r)
                else [])) with 0%nat
      by (case_bool_decide; [by rewrite responseWrites_logEvents|done]).
    unfold responseWrites at 1. simpl. lia. }
  split_and!.
  - intros rv'. subst w. rewrite Htr. split.
    + intros He. case_bool_decide; event_cases He;
        try (by apply in_keyEvents in He as [? _]);
        try (by apply in_servedEvents in He as (? & ? & ?));
        try (by apply in_logEvents in He);
        try (by apply (in_storeWrites _ _ Hevs) in He);
        apply in_serveEvents in He as [[= ->] ?]; done.
    + intros [-> Hst].
      assert (Serve rv ∈ serveEvents (status sc) rv) as Hin
        by (by apply in_serveEvents).
      repeat (rewrite ?elem_of_app, ?elem_of_cons). tauto.
  - done.
  - intros Hone Hnone. rewrite Hcount. case_bool_decide; [lia|].
    rewrite Hnone by done. simpl. lia.
Qed.

(** ** The lock set *)

(** When the render resolves, the key is out of the lock set once the
    listener returns. *)
Lemma lock_released_when_render_resolves r store lock rv :
  matched (matchRule E conf (filtered E conf r)) = true →
  stop (resolved E conf r store lock) = false →
  render E (renderArgs r) = inr rv →
  keyOf E conf r ∉ SYNC_LOCK (handle E conf (incoming r store lock)).
Proof.
  intros Hm Hstop Hr.
  destruct (handle_resolved (incoming r store lock) rv Hm Hstop Hr)
    as (_ & _ & _ & -> & _).
  intros [_ Hout]%elem_of_difference. apply Hout. by apply elem_of_singleton.
Qed.

(** When the render rejects, the rejection leaves the listener before
    line 134: the key stays in the lock set and no release is issued. *)
Lemma lock_kept_when_render_rejects r store lock reason :
  matched (matchRule E conf (filtered E conf r)) = true →
  stop (resolved E conf r store lock) = false →
  render E (renderArgs r) = inl reason →
  (wrap E conf (incoming r store lock)).1 = Throw reason
  ∧ keyOf E conf r ∈ SYNC_LOCK (handle E conf (incoming r store lock))
  ∧ ∀ k, LockDelete k ∉ trace (handle E conf (incoming r store lock)).
Proof.
  intros Hm Hstop Hr. unfold handle.
  rewrite (wrap_rejected (incoming r store lock) reason) by done.
  cbn [fst snd SYNC_LOCK trace incoming req]. split_and!; [done|set_solver|].
  intros k He. unfold resolvedWorld in He.
  cbn [incoming trace req cache SYNC_LOCK app] in He.
  case_bool_decide; event_cases He;
    try (by apply in_keyEvents in He as [? _]);
    try (by apply in_servedEvents in He as (? & ? & ?));
    try (by apply in_logEvents in He).
Qed.
(** ** More on the classifier *)

(** A match of the loop comes from the first rule that passes. *)
Lemma matchRule_rules_sound (r : IncomingMessage) (rs : list URLCacheRule) :
  matched (matchRule_rules E rs r) = true →
  ∃ pre rule post,
    rs = pre ++ rule :: post
    ∧ Forall (λ x, truthy (url r) && RegExp_test E (regex x) (url r) = false)
             pre
    ∧ truthy (url r) && RegExp_test E (regex rule) (url r) = true
    ∧ matchRule_rules E rs r = {| matched := true; m_ttl := ttl rule |}.
Proof.
  induction rs as [|x rs IH]; simpl; [done|].
  destruct (truthy (url r) && RegExp_test E (regex x) (url r)) eqn:Hx.
  - intros _. by exists [], x, rs.
  - intros (pre & rule & post & -> & Hpre & Hrule & Hres)%IH.
    exists (x :: pre), rule, post. split_and!; try done.
    by constructor.
Qed.

(** X1. Whenever [matchRule] answers [matched = true], the method is
    exactly GET or HEAD, the URL is not empty, and the TTL it returns is
    that of the first rule of the configured list whose pattern matches
    the URL: every rule before it fails. *)
Theorem matchRule_matched_from_first_rule (r : IncomingMessage) :
  matched (matchRule E conf r) = true →
  (method r = "GET" ∨ method r = "HEAD")
  ∧ url r ≠ ""
  ∧ ∃ pre rule post,
      rules conf = pre ++ rule :: post
      ∧ Forall (λ x, RegExp_test E (regex x) (url r) = false) pre
      ∧ RegExp_test E (regex rule) (url r) = true
      ∧ matchRule E conf r = {| matched := true; m_ttl := ttl rule |}.
Proof.
  intros Hm.
  destruct (decide (method r ∈ ["GET"; "HEAD"])) as [Hin|Hout];
    [|by rewrite (matchRule_wrong_method E conf r Hout) in Hm].
  rewrite (matchRule_right_method E conf r Hin) in *.
  apply matchRule_rules_sound in Hm
    as (pre & rule & post & Hrules & Hpre & Hrule & Hres).
  apply andb_true_iff in Hrule as [Htruthy Hrule].
  split_and!.
  - apply elem_of_cons in Hin as [?|Hin]; [by left|].
    apply elem_of_cons in Hin as [?|Hin]; [by right|].
    by apply elem_of_nil in Hin.
  - intros Hurl. by rewrite Hurl in Htruthy.
  - exists pre, rule, post. split_and!; try done.
    eapply Forall_impl; [exact Hpre|]. intros x Hx; simpl in Hx.
    by rewrite Htruthy in Hx.
Qed.

(** X2. An unmatched answer tells why through its TTL: [-1] when the
    method is neither GET nor HEAD, [0] when the method is fine and no
    rule passed. *)
Theorem matchRule_unmatched_ttl (r : IncomingMessage) :
  matched (matchRule E conf r) = false →
  matchRule E conf r
  = {| matched := false;
       m_ttl := if bool_decide (method r ∈ ["GET"; "HEAD"])
                then 0%Q else (-1)%Q |}.
Proof.
  intros Hm. case_bool_decide as Hin.
  - rewrite (matchRule_right_method E conf r Hin) in *.
    clear Hin. induction (rules conf) as [|x rs IH]; simpl in *; [done|].
    destruct (truthy (url r) && RegExp_test E (regex x) (url r));
      [done|by apply IH].
  - by rewrite (matchRule_wrong_method E conf r Hin).
Qed.

(** X3. A request whose URL is the empty string is never matched, not
    even by a rule whose pattern matches the empty string: the guard
    [req.url &&] fails before any pattern is tried. *)
Theorem empty_url_never_matched (r : IncomingMessage) :
  url r = "" → matched (matchRule E conf r) = false.
Proof.
  intros Hurl.
  destruct (matched (matchRule E conf r)) eqn:Hm; [|done].
  destruct (decide (method r ∈ ["GET"; "HEAD"])) as [Hin|Hout];
    [|by rewrite (matchRule_wrong_method E conf r Hout) in Hm].
  rewrite (matchRule_right_method E conf r Hin) in Hm.
  apply matchRule_rules_sound in Hm as (_ & rule & _ & _ & _ & Hrule & _).
  by rewrite Hurl in Hrule.
Qed.

(** X17. Rules appended to the configured list never change the answer
    for a request that an earlier rule already matches: the first match
    wins and later rules are not consulted. *)
Theorem appended_rules_keep_earlier_match (conf' : HandlerConfig)
    (more : list URLCacheRule) (r : IncomingMessage) :
  rules conf' = rules conf ++ more →
  matched (matchRule E conf r) = true →
  matchRule E conf' r = matchRule E conf r.
Proof.
  intros Hrules Hm.
  destruct (decide (method r ∈ ["GET"; "HEAD"])) as [Hin|Hout];
    [|by rewrite (matchRule_wrong_method E conf r Hout) in Hm].
  rewrite (matchRule_right_method E conf r Hin) in *.
  rewrite (matchRule_right_method E conf' r Hin), Hrules.
  apply matchRule_rules_sound in Hm
    as (pre & rule & post & -> & Hpre & Hrule & ->).
  rewrite <- app_assoc. simpl. by apply matchRule_rules_first.
Qed.

(** ** The four ways a request ends *)

(** Every request takes one of four paths: handed to the plain handler,
    stopped after [serveCache], ended by a rejected render, or carried
    through the render-and-write block. *)
Lemma request_paths r store lock :
  let w := incoming r store lock in
  let sc := resolved E conf r store lock in
  let key := keyOf E conf r in
  let mr := matchRule E conf (filtered E conf r) in
  let consulted :=
    keyEvents E conf r ++
    CallServeCache key (forcedFlag r) :: servedEvents sc in
  let staleLog :=
    if bool_decide (status sc = stale)
    then logEvents conf (status_label (status sc)) (url r) else [] in
  (matched mr = false
   ∧ (wrap E conf w).1 = Normal ()
   ∧ cache (handle E conf w) = store
   ∧ SYNC_LOCK (handle E conf w) = lock
   ∧ trace (handle E conf w) = keyEvents E conf r ++ [CallPlainHandler r])
  ∨ (matched mr = true ∧ stop sc = true
     ∧ (wrap E conf w).1 = Normal ()
     ∧ cache (handle E conf w) = store
     ∧ SYNC_LOCK (handle E conf w) = lock
     ∧ trace (handle E conf w)
       = consulted ++ logEvents conf (status_label (status sc)) (url r))
  ∨ (matched mr = true ∧ stop sc = false
     ∧ ∃ reason,
         render E (renderArgs r) = inl reason
         ∧ (wrap E conf w).1 = Throw reason
         ∧ cache (handle E conf w) = store
         ∧ SYNC_LOCK (handle E conf w) = {[key]} ∪ lock
         ∧ trace (handle E conf w)
           = consulted ++ staleLog ++
             [LockAdd key; CallRender (renderArgs r)])
  ∨ (matched mr = true ∧ stop sc = false
     ∧ ∃ rv evs,
         render E (renderArgs r) = inr rv
         ∧ Forall (λ e, isStoreWrite e = true) evs
         ∧ (wrap E conf w).1 = Normal ()
         ∧ cache (handle E conf w)
           = cache (persist E conf key (status sc) (m_ttl mr) rv
                      (rendered conf key (status sc) rv
                         (resolvedWorld E conf w))).2
         ∧ SYNC_LOCK (handle E conf w) = ({[key]} ∪ lock) ∖ {[key]}
         ∧ trace (handle E conf w)
           = consulted ++ staleLog ++
             LockAdd key :: CallRender (renderArgs r) ::
             serveEvents (status sc) rv ++
             logEvents conf
               (if bool_decide (status sc = stale) then "update"
                else status_label (status sc)) (url r) ++
             evs ++ [LockDelete key]).
Proof.
  intros w sc key mr consulted staleLog.
  destruct (matched mr) eqn:Hm.
  - destruct (stop sc) eqn:Hstop.
    + right; left. split_and!; try done; unfold handle;
        rewrite (wrap_stopped w Hm Hstop); try done.
      cbn [snd trace]. subst consulted. cbn [w incoming trace req app].
      by rewrite <- app_assoc.
    + destruct (render E (renderArgs r)) as [reason|rv] eqn:Hr.
      * right; right; left. split_and!; try done. exists reason.
        unfold handle. rewrite (wrap_rejected w reason Hm Hstop Hr).
        split_and!; try done.
        unfold resolvedWorld. cbn [snd trace w incoming req cache SYNC_LOCK app].
        subst consulted staleLog. fold sc key.
        rewrite <- !app_assoc. cbn [app]. by rewrite <- !app_assoc.
      * right; right; right. split_and!; try done.
        destruct (handle_resolved w rv Hm Hstop Hr)
          as (Hout & _ & Hcache & Hlock & _).
        destruct (resolved_trace w rv Hm Hstop Hr) as (evs & Hevs & _ & Htr).
        exists rv, evs. split_and!; try done.
        rewrite Htr. cbn [w incoming trace req cache SYNC_LOCK app].
        subst consulted staleLog. fold sc key.
        by rewrite <- !app_assoc.
  - left. unfold handle. rewrite (wrap_unmatched w Hm). by split_and!.
Qed.

(** ** What the listener leaves alone *)

Lemma persist_store_frame key st t rv w k :
  k ≠ "body:" +:+ key → k ≠ "header:" +:+ key →
  cache (persist E conf key st t rv w).2 !! k = cache w !! k.
Proof.
  intros Hb Hh.
  destruct (decide (statusCode rv = 200 ∧ rv_body rv ≠ [])) as [[? ?]|Hno].
  - rewrite persist_cacheable by done. cbn [snd cache].
    by rewrite !lookup_insert_ne.
  - destruct (decide (st = force)) as [->|Hst].
    + rewrite persist_purge by done. cbn [snd cache].
      by rewrite !lookup_delete_ne.
    + by rewrite persist_skip.
Qed.

Lemma logEvents_quiet label u : quiet conf = true → logEvents conf label u = [].
Proof. intros Hq. unfold logEvents. by rewrite Hq. Qed.

(** The events up to and including the [serveCache] call, and the log
    lines, are neither render calls nor store or lock operations. *)
Lemma consulted_events_are_calls e r sc :
  e ∈ keyEvents E conf r ++
      CallServeCache (keyOf E conf r) (forcedFlag r) :: servedEvents sc →
  isRenderCall e = false ∧ isStoreWrite e = false ∧ isLockAdd e = false
  ∧ isLog e = false ∧ ∀ rv, e ≠ Serve rv.
Proof.
  intros He. event_cases He.
  - by apply in_keyEvents in He as [-> _].
  - by subst e.
  - by apply in_servedEvents in He as (? & ? & ->).
Qed.

(** X4. When [serveCache] stops a matched request (a hit), the listener
    returns normally without calling the renderer, without any [set] or
    [del] on the store, without touching the lock set and without serving
    anything itself: the only writes to the response are those of
    [serveCache]. *)
Theorem stopped_request_never_renders r store lock :
  matched (matchRule E conf (filtered E conf r)) = true →
  stop (resolved E conf r store lock) = true →
  let w := handle E conf (incoming r store lock) in
  (wrap E conf (incoming r store lock)).1 = Normal ()
  ∧ cache w = store
  ∧ SYNC_LOCK w = lock
  ∧ Forall (λ e, isRenderCall e = false ∧ isStoreWrite e = false
                 ∧ isLockAdd e = false) (trace w)
  ∧ (∀ rv, Serve rv ∉ trace w)
  ∧ responseWrites (trace w) = length (served (resolved E conf r store lock)).
Proof.
  intros Hm Hstop w. subst w.
  destruct (request_paths r store lock)
    as [(Hm' & _)|[(_ & _ & Hout & Hc & Hl & Htr)
       |[(_ & Hs' & _)|(_ & Hs' & _)]]]; try congruence.
  rewrite Hc, Hl, Htr. split_and!; try done.
  - apply Forall_forall. intros e [He|He]%elem_of_app.
    + by destruct (consulted_events_are_calls e r _ He) as (? & ? & ? & _).
    + by apply in_logEvents in He as ->.
  - intros rv [He|He]%elem_of_app.
    + by destruct (consulted_events_are_calls _ r _ He) as (_ & _ & _ & _ & Hne);
        eapply Hne.
    + by apply in_logEvents in He.
  - rewrite !responseWrites_app, responseWrites_cons, responseWrites_keyEvents,
      responseWrites_servedEvents, responseWrites_logEvents. simpl. lia.
Qed.

(** X5. Whatever the request and whichever way it ends, the listener
    leaves every store entry other than [body:<key>] and [header:<key>]
    as it found it. *)
Theorem store_changes_only_at_key r store lock (k : string) :
  k ≠ "body:" +:+ keyOf E conf r →
  k ≠ "header:" +:+ keyOf E conf r →
  cache (handle E conf (incoming r store lock)) !! k = store !! k.
Proof.
  intros Hb Hh.
  destruct (request_paths r store lock)
    as [(_ & _ & -> & _)|[(_ & _ & _ & -> & _)
       |[(_ & _ & reason & _ & _ & -> & _)
        |(_ & _ & rv & evs & _ & _ & _ & -> & _)]]]; try done.
  by rewrite persist_store_frame.
Qed.

(** X6. Whatever the request and whichever way it ends, membership in the
    lock set of every key other than the request's own is unchanged. *)
Theorem lock_set_changes_only_at_key r store lock (k : string) :
  k ≠ keyOf E conf r →
  k ∈ SYNC_LOCK (handle E conf (incoming r store lock)) ↔ k ∈ lock.
Proof.
  intros Hk.
  destruct (request_paths r store lock)
    as [(_ & _ & _ & -> & _)|[(_ & _ & _ & _ & -> & _)
       |[(_ & _ & reason & _ & _ & _ & -> & _)
        |(_ & _ & rv & evs & _ & _ & _ & _ & -> & _)]]]; try done.
  - rewrite elem_of_union, elem_of_singleton. tauto.
  - rewrite elem_of_difference, elem_of_union, elem_of_singleton. tauto.
Qed.

(** X7. After a render that resolves, the lock set is the one the
    request found minus its key: a membership that another request in
    flight for the same key had added is dropped with it. *)
Theorem resolved_render_drops_key_from_lock_set r store lock rv :
  matched (matchRule E conf (filtered E conf r)) = true →
  stop (resolved E conf r store lock) = false →
  render E (renderArgs r) = inr rv →
  SYNC_LOCK (handle E conf (incoming r store lock))
  = lock ∖ {[keyOf E conf r]}.
Proof.
  intros Hm Hstop Hr.
  destruct (handle_resolved (incoming r store lock) rv Hm Hstop Hr)
    as (_ & _ & _ & -> & _).
  cbn [incoming SYNC_LOCK req]. apply set_eq. intros k.
  rewrite !elem_of_difference, elem_of_union, elem_of_singleton. tauto.
Qed.

(** X8. When the render of a matched request rejects, the listener ends
    with that rejection, and up to then it has served nothing itself and
    issued no [set] or [del]: the store is as it was, so an entry served
    stale stays in place. *)
Theorem rejected_render_leaves_store_untouched r store lock reason :
  matched (matchRule E conf (filtered E conf r)) = true →
  stop (resolved E conf r store lock) = false →
  render E (renderArgs r) = inl reason →
  let w := handle E conf (incoming r store lock) in
  (wrap E conf (incoming r store lock)).1 = Throw reason
  ∧ cache w = store
  ∧ Forall (λ e, isStoreWrite e = false) (trace w)
  ∧ (∀ rv, Serve rv ∉ trace w)
  ∧ responseWrites (trace w) = length (served (resolved E conf r store lock)).
Proof.
  intros Hm Hstop Hr w. subst w.
  destruct (request_paths r store lock)
    as [(Hm' & _)|[(_ & Hs' & _)
       |[(_ & _ & reason' & Hr' & Hout & Hc & _ & Htr)
        |(_ & _ & rv & evs & Hr' & _)]]]; try congruence.
  assert (reason' = reason) as -> by congruence.
  rewrite Hc, Htr. split_and!; try done.
  - apply Forall_forall. intros e He.
    rewrite app_assoc in He. apply elem_of_app in He as [He|He].
    + apply elem_of_app in He as [He|He].
      * by destruct (consulted_events_are_calls e r _ He) as (_ & ? & _).
      * case_bool_decide; [by apply in_logEvents in He as ->|].
        by apply elem_of_nil in He.
    + event_cases He; by subst e.
  - intros rv He.
    rewrite app_assoc in He. apply elem_of_app in He as [He|He].
    + apply elem_of_app in He as [He|He].
      * by destruct (consulted_events_are_calls _ r _ He)
          as (_ & _ & _ & _ & Hne); eapply Hne.
      * case_bool_decide; [by apply in_logEvents in He|].
        by apply elem_of_nil in He.
    + event_cases He.
  - rewrite !responseWrites_app, !responseWrites_cons, responseWrites_keyEvents,
      responseWrites_servedEvents.
    replace (responseWrites
               (if bool_decide (status (resolved E conf r store lock) = stale)
                then logEvents conf
                       (status_label (status (resolved E conf r store lock)))
                       (url r)
                else [])) with 0%nat
      by (case_bool_decide; [by rewrite responseWrites_logEvents|done]).
    unfold responseWrites. simpl. lia.
Qed.

(** ** Render calls and log lines *)

Lemma filter_events_none (f : Event → bool) (l : list Event) :
  (∀ e, e ∈ l → f e = false) → List.filter f l = [].
Proof. intros Hl. apply filter_none. by apply Forall_forall. Qed.

Lemma filter_consulted (f : Event → bool) r sc :
  (∀ e, isRenderCall e = false → isStoreWrite e = false →
        isLockAdd e = false → isLog e = false → (∀ rv, e ≠ Serve rv) →
        f e = false) →
  List.filter f (keyEvents E conf r ++
                 CallServeCache (keyOf E conf r) (forcedFlag r)
                 :: servedEvents sc) = [].
Proof.
  intros Hf. apply filter_events_none. intros e He.
  destruct (consulted_events_are_calls e r sc He) as (? & ? & ? & ? & ?).
  by apply Hf.
Qed.

Lemma filter_storeWrites (f : Event → bool) evs :
  (∀ e, isStoreWrite e = true → f e = false) →
  Forall (λ e, isStoreWrite e = true) evs → List.filter f evs = [].
Proof.
  intros Hf Hevs. apply filter_events_none. intros e He.
  apply Hf. by eapply in_storeWrites.
Qed.

Lemma renderCalls_logEvents label u :
  List.filter isRenderCall (logEvents conf label u) = [].
Proof. unfold logEvents. by destruct (quiet conf). Qed.

Lemma renderCalls_serveEvents st rv :
  List.filter isRenderCall (serveEvents st rv) = [].
Proof. unfold serveEvents. by case_bool_decide. Qed.


Lemma logs_serveEvents st rv : List.filter isLog (serveEvents st rv) = [].
Proof. unfold serveEvents. by case_bool_decide. Qed.

(** X9. The renderer is called at most once per request: exactly once,
    with the path, headers and method of the request as received, when
    the request is matched and [serveCache] does not stop it, and not at
    all otherwise. *)
Theorem renderer_called_once_unless_stopped r store lock :
  List.filter isRenderCall (trace (handle E conf (incoming r store lock)))
  = if matched (matchRule E conf (filtered E conf r))
       && negb (stop (resolved E conf r store lock))
    then [CallRender (renderArgs r)] else [].
Proof.
  destruct (request_paths r store lock)
    as [(-> & _ & _ & _ & ->)|[(-> & -> & _ & _ & _ & ->)
       |[(-> & -> & reason & _ & _ & _ & _ & ->)
        |(-> & -> & rv & evs & _ & Hevs & _ & _ & _ & ->)]]];
    cbn [andb negb].
  - rewrite List.filter_app. unfold keyEvents. by destruct (cacheKey conf).
  - by rewrite List.filter_app, filter_consulted, renderCalls_logEvents.
  - rewrite List.filter_app, filter_consulted by done.
    rewrite List.filter_app. cbn [List.filter isRenderCall app].
    case_bool_decide; by rewrite ?renderCalls_logEvents.
  - rewrite List.filter_app, filter_consulted by done.
    rewrite List.filter_app. cbn [List.filter isRenderCall app].
    rewrite !List.filter_app, renderCalls_serveEvents, renderCalls_logEvents.
    rewrite (filter_storeWrites isRenderCall evs) by (done || by intros []).
    case_bool_decide; by rewrite ?renderCalls_logEvents.
Qed.

(** X10. With [quiet] set the listener never logs, whichever way the
    request ends. *)
Theorem quiet_listener_never_logs r store lock :
  quiet conf = true →
  List.filter isLog (trace (handle E conf (incoming r store lock))) = [].
Proof.
  intros Hq.
  destruct (request_paths r store lock)
    as [(_ & _ & _ & _ & ->)|[(_ & _ & _ & _ & _ & ->)
       |[(_ & _ & reason & _ & _ & _ & _ & ->)
        |(_ & _ & rv & evs & _ & Hevs & _ & _ & _ & ->)]]].
  - rewrite List.filter_app. unfold keyEvents. by destruct (cacheKey conf).
  - by rewrite List.filter_app, filter_consulted, logEvents_quiet.
  - rewrite List.filter_app, filter_consulted by done.
    rewrite List.filter_app. cbn [List.filter isLog app].
    case_bool_decide; by rewrite ?logEvents_quiet.
  - rewrite List.filter_app, filter_consulted by done.
    rewrite List.filter_app. cbn [List.filter isLog app].
    rewrite !List.filter_app, logs_serveEvents.
    rewrite (filter_storeWrites isLog evs) by (done || by intros []).
    case_bool_decide; by rewrite !logEvents_quiet.
Qed.


(** ** Order and content of the store operations *)

(** X12. When the render is cacheable, the last three things the
    listener does are, in this order, [set body:<key>], [set header:<key>]
    and the release of the key; the lock was taken, the renderer called
    and -- unless the status is stale -- the response served before the
    store is first written. *)
Theorem store_written_after_response_before_release r store lock rv :
  matched (matchRule E conf (filtered E conf r)) = true →
  stop (resolved E conf r store lock) = false →
  render E (renderArgs r) = inr rv →
  statusCode rv = 200 →
  rv_body rv ≠ [] →
  let key := keyOf E conf r in
  let t := m_ttl (matchRule E conf (filtered E conf r)) in
  ∃ pre,
    trace (handle E conf (incoming r store lock))
    = pre ++ [CacheSet ("body:" +:+ key) (buf E conf rv) t;
              CacheSet ("header:" +:+ key)
                       (toBuffer E (headersToSave conf rv)) t;
              LockDelete key]
    ∧ Forall (λ e, isStoreWrite e = false) pre
    ∧ LockAdd key ∈ pre
    ∧ CallRender (renderArgs r) ∈ pre
    ∧ (status (resolved E conf r store lock) ≠ stale → Serve rv ∈ pre).
Proof.
  intros Hm Hstop Hr H200 Hbody key t.
  destruct (handle_resolved (incoming r store lock) rv Hm Hstop Hr)
    as (_ & _ & _ & _ & ->).
  cbn [incoming req cache SYNC_LOCK]. fold key t.
  rewrite persist_cacheable by done. cbn [snd trace].
  eexists. split; [by rewrite <- app_assoc|].
  split; [apply no_store_write_before_persist|].
  unfold rendered. cbn [trace req incoming].
  split_and!.
  - apply elem_of_app. right. left.
  - apply elem_of_app. right. right. left.
  - intros Hst. apply elem_of_app. right. right. right.
    apply elem_of_app. left. by apply in_serveEvents.
Qed.

(** X13. After a cacheable render the header record in the store is the
    byte form of [JSON.stringify] of the headers to save: read back as
    text it is that JSON string again. *)
Theorem stored_header_record_decodes_to_json r store lock rv :
  matched (matchRule E conf (filtered E conf r)) = true →
  stop (resolved E conf r store lock) = false →
  render E (renderArgs r) = inr rv →
  statusCode rv = 200 →
  rv_body rv ≠ [] →
  ∃ record t,
    cache (handle E conf (incoming r store lock))
      !! ("header:" +:+ keyOf E conf r) = Some (record, t)
    ∧ String.string_of_list_byte record
      = JSON_stringify E (headersToSave conf rv).
Proof.
  intros Hm Hstop Hr H200 Hbody.
  destruct (handle_resolved (incoming r store lock) rv Hm Hstop Hr)
    as (_ & _ & -> & _).
  rewrite persist_cacheable by done. cbn [snd cache].
  eexists _, _. split; [apply lookup_insert_eq|].
  apply String.string_of_list_byte_of_string.
Qed.

(** X14. Store and purge compose to nothing: on a store that holds
    neither record of a key, a cacheable render for that key followed by
    a forced refresh of the same key that renders an empty body leaves
    the store exactly as it was at the start. *)
Theorem store_then_purge_restores_store r1 r2 store lock1 lock2 rv1 rv2 :
  keyOf E conf r1 = keyOf E conf r2 →
  store !! ("body:" +:+ keyOf E conf r1) = None →
  store !! ("header:" +:+ keyOf E conf r1) = None →
  matched (matchRule E conf (filtered E conf r1)) = true →
  stop (resolved E conf r1 store lock1) = false →
  render E (renderArgs r1) = inr rv1 →
  statusCode rv1 = 200 →
  rv_body rv1 ≠ [] →
  matched (matchRule E conf (filtered E conf r2)) = true →
  stop (resolved E conf r2
          (cache (handle E conf (incoming r1 store lock1))) lock2) = false →
  status (resolved E conf r2
            (cache (handle E conf (incoming r1 store lock1))) lock2) = force →
  render E (renderArgs r2) = inr rv2 →
  rv_body rv2 = [] →
  cache (handle E conf
           (incoming r2 (cache (handle E conf (incoming r1 store lock1)))
                     lock2))
  = store.
Proof.
  intros Hkey Hb Hh Hm1 Hs1 Hr1 H200 Hbody Hm2 Hs2 Hf2 Hr2 Hempty.
  destruct (handle_resolved
              (incoming r2 (cache (handle E conf (incoming r1 store lock1)))
                        lock2) rv2 Hm2 Hs2 Hr2) as (_ & _ & -> & _).
  cbn [incoming req cache SYNC_LOCK] in *. rewrite Hf2.
  rewrite persist_purge by (intros [_ ?]; done).
  cbn [snd cache rendered resolvedWorld incoming].
  destruct (handle_resolved (incoming r1 store lock1) rv1 Hm1 Hs1 Hr1)
    as (_ & _ & -> & _).
  cbn [incoming req cache SYNC_LOCK].
  rewrite persist_cacheable by done.
  cbn [snd cache rendered resolvedWorld incoming]. rewrite <- Hkey.
  rewrite delete_insert_ne by apply body_header_keys_differ.
  rewrite delete_insert_eq.
  rewrite delete_insert_eq.
  rewrite (delete_id store) by done. by rewrite delete_id.
Qed.

(** ** All store and lock operations of a request *)

(** X15. The store operations of a request, whichever way it ends, are
    exactly these: none, unless the request is matched, not stopped and
    its render resolves; then the two [set]s when the render has status
    200 and a non-empty body, else the two [del]s when the status is
    force, else none.  In particular the listener never deletes unless
    [serveCache] answered force, and never writes a record for a render
    that rejected, came back non-200 or came back empty. *)
Theorem store_operations_of_request r store lock :
  let sc := resolved E conf r store lock in
  let key := keyOf E conf r in
  let t := m_ttl (matchRule E conf (filtered E conf r)) in
  List.filter isStoreWrite (trace (handle E conf (incoming r store lock)))
  = if matched (matchRule E conf (filtered E conf r)) && negb (stop sc)
    then match render E (renderArgs r) with
         | inl _ => []
         | inr rv =>
             if Z.eqb (statusCode rv) 200
                && Nat.ltb 0 (length (rv_body rv))
             then [CacheSet ("body:" +:+ key) (buf E conf rv) t;
                   CacheSet ("header:" +:+ key)
                            (toBuffer E (headersToSave conf rv)) t]
             else if bool_decide (status sc = force)
                  then [CacheDel ("body:" +:+ key);
                        CacheDel ("header:" +:+ key)]
                  else []
         end
    else [].
Proof.
  intros sc key t.
  destruct (request_paths r store lock)
    as [(Hm & _ & _ & _ & Htr)|[(Hm & Hs & _ & _ & _ & Htr)
       |[(Hm & Hs & reason & Hr & _ & _ & _ & Htr)
        |(Hm & Hs & rv & evs & Hr & _)]]].
  - rewrite Hm, Htr, List.filter_app. cbn [andb List.filter isStoreWrite].
    unfold keyEvents. by destruct (cacheKey conf).
  - fold sc in Hs. rewrite Hm, Hs, Htr. cbn [andb negb].
    rewrite List.filter_app, filter_consulted by done.
    unfold logEvents. by destruct (quiet conf).
  - fold sc in Hs. rewrite Hm, Hs, Hr, Htr. cbn [andb negb].
    rewrite List.filter_app, filter_consulted by done.
    rewrite List.filter_app. cbn [List.filter isStoreWrite app].
    rewrite app_nil_r. case_bool_decide; [|done].
    unfold logEvents. by destruct (quiet conf).
  - fold sc in Hs. rewrite Hm, Hs, Hr. cbn [andb negb].
    destruct (handle_resolved (incoming r store lock) rv Hm Hs Hr)
      as (_ & _ & _ & _ & ->).
    cbn [incoming req cache SYNC_LOCK]. fold sc key t.
    pose proof (no_store_write_before_persist r store lock key (status sc) rv)
      as Hpre.
    destruct (decide (statusCode rv = 200 ∧ rv_body rv ≠ [])) as [[? ?]|Hno].
    + rewrite cacheable_true, persist_cacheable by done. cbn [snd trace].
      rewrite !List.filter_app. by rewrite (filter_none _ _ Hpre).
    + rewrite cacheable_false by done.
      case_bool_decide as Hst.
      * rewrite Hst in *. rewrite persist_purge by done. cbn [snd trace].
        rewrite !List.filter_app. by rewrite (filter_none _ _ Hpre).
      * rewrite persist_skip by done. cbn [snd].
        rewrite !List.filter_app. by rewrite (filter_none _ _ Hpre).
Qed.

Lemma lockOps_logEvents label u :
  List.filter isLockOp (logEvents conf label u) = [].
Proof. unfold logEvents. by destruct (quiet conf). Qed.

Lemma lockOps_serveEvents st rv :
  List.filter isLockOp (serveEvents st rv) = [].
Proof. unfold serveEvents. by case_bool_decide. Qed.

(** X16. The lock operations of a request, whichever way it ends, are
    exactly these: none, unless the request is matched and not stopped;
    then one [add] of the key, followed by one [delete] of it when the
    render resolves and by nothing when it rejects. *)
Theorem lock_operations_of_request r store lock :
  let key := keyOf E conf r in
  List.filter isLockOp (trace (handle E conf (incoming r store lock)))
  = if matched (matchRule E conf (filtered E conf r))
       && negb (stop (resolved E conf r store lock))
    then match render E (renderArgs r) with
         | inl _ => [LockAdd key]
         | inr _ => [LockAdd key; LockDelete key]
         end
    else [].
Proof.
  intros key.
  assert (∀ r' sc,
            List.filter isLockOp
              (keyEvents E conf r' ++
               CallServeCache (keyOf E conf r') (forcedFlag r')
               :: servedEvents sc) = []) as Hconsulted.
  { intros r' sc. apply filter_events_none. intros e He. event_cases He.
    - by apply in_keyEvents in He as [-> _].
    - by subst e.
    - by apply in_servedEvents in He as (? & ? & ->). }
  destruct (request_paths r store lock)
    as [(-> & _ & _ & _ & ->)|[(-> & -> & _ & _ & _ & ->)
       |[(-> & -> & reason & -> & _ & _ & _ & ->)
        |(-> & -> & rv & evs & -> & Hevs & _ & _ & _ & ->)]]];
    cbn [andb negb].
  - rewrite List.filter_app. unfold keyEvents. by destruct (cacheKey conf).
  - by rewrite List.filter_app, Hconsulted, lockOps_logEvents.
  - rewrite List.filter_app, Hconsulted.
    rewrite List.filter_app. cbn [List.filter isLockOp app].
    case_bool_decide; by rewrite ?lockOps_logEvents.
  - rewrite List.filter_app, Hconsulted.
    rewrite List.filter_app. cbn [List.filter isLockOp app].
    rewrite !List.filter_app, lockOps_serveEvents, lockOps_logEvents.
    rewrite (filter_storeWrites isLockOp evs) by (done || by intros []).
    case_bool_decide; by rewrite ?lockOps_logEvents.
Qed.

End ListenerFacts.

(** * The theorems at work on concrete requests *)

Section Examples.

Import Fixture.

Lemma matchRule_first_match_witness :
  url (GET "/hello" ∅) ≠ ""
  ∧ matchRule rt conf_hello (GET "/hello" ∅)
    = {| matched := true; m_ttl := 1 # 2 |}.
Proof.
  split; [discriminate|].
  apply (proj1 (matchRule_first_match rt conf_hello (GET "/hello" ∅)
                  ltac:(discriminate)))
    with (pre := []) (rule := rule_hello) (post := []);
    [repeat constructor|reflexivity|constructor|reflexivity].
Defined.

Lemma DELETE_not_cacheable u : method (DELETE u) ∉ ["GET"; "HEAD"].
Proof.
  intros He. repeat (apply elem_of_cons in He as [He|He]; [discriminate|]).
  by apply elem_of_nil in He.
Defined.

Lemma unmatched_request_bypasses_cache_witness :
  (method (DELETE "/hello") ∉ ["GET"; "HEAD"])
  ∧ trace (handle rt conf_hello
             (incoming (DELETE "/hello") (store_holding "/hello") ∅))
    = [CallPlainHandler (DELETE "/hello")]
  ∧ cache (handle rt conf_hello
             (incoming (DELETE "/hello") (store_holding "/hello") ∅))
    = store_holding "/hello".
Proof.
  split; [apply DELETE_not_cacheable|].
  destruct (unmatched_request_bypasses_cache rt conf_hello
              (DELETE "/hello") (store_holding "/hello") ∅
              (or_introl (DELETE_not_cacheable "/hello")))
    as (_ & Htr & _ & Hc & _).
  split; [exact Htr|exact Hc].
Defined.

Lemma forced_flag_iff_update_header_witness :
  matched (matchRule rt conf_hello (filtered rt conf_hello
                                      (GET "/hello" forced))) = true
  ∧ ∀ key fc,
      CallServeCache key fc
        ∈ trace (handle rt conf_hello (incoming (GET "/hello" forced) ∅ ∅)) →
      fc = true.
Proof.
  split; [reflexivity|]. intros key fc He.
  apply (proj2 (forced_flag_iff_update_header rt conf_hello
                  (GET "/hello" forced) ∅ ∅ ltac:(reflexivity))
           key fc He).
  reflexivity.
Defined.

Lemma key_from_filtered_url_render_from_original_witness :
  (matched (matchRule rt conf_filter
              (filtered rt conf_filter (GET "/params?p1=1&p2=2" ∅))) = true
   ∧ cacheKey conf_filter = None)
  ∧ (∃ fc tail,
       trace (handle rt conf_filter
                (incoming (GET "/params?p1=1&p2=2" ∅) ∅ ∅))
       = CallServeCache "/params?p2=2" fc :: tail)
  ∧ (CallRender (renderArgs (GET "/params?p1=1&p2=2" ∅))
       ∈ trace (handle rt conf_filter
                  (incoming (GET "/params?p1=1&p2=2" ∅) ∅ ∅)))
  ∧ req (handle rt conf_filter (incoming (GET "/params?p1=1&p2=2" ∅) ∅ ∅))
    = GET "/params?p1=1&p2=2" ∅.
Proof.
  split; [by split|].
  destruct (key_from_filtered_url_render_from_original rt conf_filter
              (GET "/params?p1=1&p2=2" ∅) ∅ ∅) as (Hkey & _ & _ & Hreq).
  destruct (Hkey ltac:(reflexivity) ltac:(reflexivity)) as (fc & tail & Htr).
  split_and!; [by exists fc, tail| |exact Hreq].
  assert (∃ fc' tail',
            trace (handle rt conf_filter
                     (incoming (GET "/params?p1=1&p2=2" ∅) ∅ ∅))
            = CallServeCache "/params?p2=2" fc' :: LockAdd "/params?p2=2"
              :: CallRender (renderArgs (GET "/params?p1=1&p2=2" ∅))
              :: tail') as (fc' & tail' & ->)
    by (eexists _, _; reflexivity).
  do 2 right. left.
Defined.

Lemma cacheKey_builder_sees_filtered_url_witness :
  cacheKey conf_params = Some (λ r, url r +:+ "_001")
  ∧ ∃ fc tail,
      trace (handle rt conf_params
               (incoming (GET "/params?p1=1&p2=2" ∅) ∅ ∅))
      = CallCacheKey (GET "/params?p2=2" ∅)
        :: CallServeCache "/params?p2=2_001" fc :: tail.
Proof.
  split; [reflexivity|].
  destruct (cacheKey_builder_sees_filtered_url rt conf_params
              (λ r, url r +:+ "_001") (GET "/params?p1=1&p2=2" ∅) ∅ ∅
              eq_refl) as (_ & Hkey & _).
  exact (Hkey eq_refl).
Defined.

Lemma cacheable_render_stores_pair_witness :
  (matched (matchRule rt conf_hello (filtered rt conf_hello
                                       (GET "/hello" ∅))) = true
   ∧ stop (resolved rt conf_hello (GET "/hello" ∅) ∅ ∅) = false
   ∧ render rt (renderArgs (GET "/hello" ∅)) = inr page_hello
   ∧ statusCode page_hello = 200
   ∧ rv_body page_hello ≠ [])
  ∧ cache (handle rt conf_hello (incoming (GET "/hello" ∅) ∅ ∅))
      !! "body:/hello"
    = Some (gzip_stub (Buffer_from "hello"), 1 # 2)
  ∧ cache (handle rt conf_hello (incoming (GET "/hello" ∅) ∅ ∅))
      !! "header:/hello"
    = Some (Buffer_from "{x-lang:en}", 1 # 2).
Proof.
  split; [by split_and!|].
  destruct (cacheable_render_stores_pair rt conf_hello (GET "/hello" ∅)
              ∅ ∅ page_hello ltac:(reflexivity) ltac:(reflexivity)
              ltac:(reflexivity) ltac:(reflexivity) ltac:(discriminate))
    as (Hbody & Hheader & _).
  split; [exact Hbody|exact Hheader].
Defined.

Lemma forced_empty_render_purges_pair_witness :
  (matched (matchRule rt conf_hello
              (filtered rt conf_hello (GET "/hello-empty" forced))) = true
   ∧ stop (resolved rt conf_hello (GET "/hello-empty" forced)
             (store_holding "/hello-empty") ∅) = false
   ∧ status (resolved rt conf_hello (GET "/hello-empty" forced)
               (store_holding "/hello-empty") ∅) = force
   ∧ render rt (renderArgs (GET "/hello-empty" forced)) = inr page_empty
   ∧ rv_body page_empty = [])
  ∧ is_Some (store_holding "/hello-empty" !! "body:/hello-empty")
  ∧ cache (handle rt conf_hello
             (incoming (GET "/hello-empty" forced)
                       (store_holding "/hello-empty") ∅))
      !! "body:/hello-empty" = None
  ∧ cache (handle rt conf_hello
             (incoming (GET "/hello-empty" forced)
                       (store_holding "/hello-empty") ∅))
      !! "header:/hello-empty" = None.
Proof.
  split; [by split_and!|]. split; [by eexists|].
  destruct (forced_empty_render_purges_pair rt conf_hello
              (GET "/hello-empty" forced) (store_holding "/hello-empty") ∅
              page_empty ltac:(reflexivity) ltac:(reflexivity)
              ltac:(reflexivity) ltac:(reflexivity) ltac:(reflexivity))
    as (Hbody & Hheader & _).
  split; [exact Hbody|exact Hheader].
Defined.

Lemma uncacheable_outcome_store_effect_witness :
  (matched (matchRule rt conf_hello
              (filtered rt conf_hello (GET "/hello-gone" ∅))) = true
   ∧ stop (resolved rt conf_hello (GET "/hello-gone" ∅) ∅ ∅) = false
   ∧ render rt (renderArgs (GET "/hello-gone" ∅)) = inr page_gone
   ∧ ¬ (statusCode page_gone = 200 ∧ rv_body page_gone ≠ [])
   ∧ status (resolved rt conf_hello (GET "/hello-gone" ∅) ∅ ∅) ≠ force)
  ∧ cache (handle rt conf_hello (incoming (GET "/hello-gone" ∅) ∅ ∅)) = ∅.
Proof.
  assert (¬ (statusCode page_gone = 200 ∧ rv_body page_gone ≠ [])) as Hno
    by (intros [? _]; discriminate).
  assert (status (resolved rt conf_hello (GET "/hello-gone" ∅) ∅ ∅) ≠ force)
    as Hst by discriminate.
  split; [by split_and!|].
  destruct (uncacheable_outcome_store_effect rt conf_hello
              (GET "/hello-gone" ∅) ∅ ∅ page_gone ltac:(reflexivity)
              ltac:(reflexivity) ltac:(reflexivity) Hno) as (Hskip & _).
  exact (proj1 (Hskip Hst)).
Defined.

Lemma rendered_response_served_unless_stale_witness :
  (matched (matchRule rt_expired conf_hello
              (filtered rt_expired conf_hello (GET "/hello" ∅))) = true
   ∧ stop (resolved rt_expired conf_hello (GET "/hello" ∅)
             (store_holding "/hello") ∅) = false
   ∧ render rt_expired (renderArgs (GET "/hello" ∅)) = inr page_hello)
  ∧ status (resolved rt_expired conf_hello (GET "/hello" ∅)
              (store_holding "/hello") ∅) = stale
  ∧ (Serve page_hello
       ∉ trace (handle rt_expired conf_hello
                  (incoming (GET "/hello" ∅) (store_holding "/hello") ∅)))
  ∧ responseWrites
      (trace (handle rt_expired conf_hello
                (incoming (GET "/hello" ∅) (store_holding "/hello") ∅)))
    = 1%nat.
Proof.
  split; [by split_and!|]. split; [reflexivity|].
  destruct (rendered_response_served_unless_stale rt_expired conf_hello
              (GET "/hello" ∅) (store_holding "/hello") ∅ page_hello
              ltac:(reflexivity) ltac:(reflexivity) ltac:(reflexivity))
    as (Hserve & Hcount & _).
  split; [|exact Hcount].
  intros He. apply Hserve in He as [_ Hst]. by apply Hst.
Defined.

(** C1. The listener adds the key to the lock set on line 106 and removes
    it on line 134, with the awaited render in between and nothing to
    catch its rejection: for [GET /hello-boom], whose render rejects, the
    listener ends abruptly, no release is issued and the key is still in
    the lock set afterwards. *)
Theorem lock_leaks_when_render_rejects :
  matched (matchRule rt conf_hello
             (filtered rt conf_hello (GET "/hello-boom" ∅))) = true
  ∧ render rt (renderArgs (GET "/hello-boom" ∅)) = inl "render failed"
  ∧ (wrap rt conf_hello (incoming (GET "/hello-boom" ∅) ∅ ∅)).1
    = Throw "render failed"
  ∧ trace (handle rt conf_hello (incoming (GET "/hello-boom" ∅) ∅ ∅))
    = [CallServeCache "/hello-boom" false; LockAdd "/hello-boom";
       CallRender (renderArgs (GET "/hello-boom" ∅))]
  ∧ "/hello-boom"
      ∈ SYNC_LOCK (handle rt conf_hello
                     (incoming (GET "/hello-boom" ∅) ∅ ∅)).
Proof.
  destruct (lock_kept_when_render_rejects rt conf_hello
              (GET "/hello-boom" ∅) ∅ ∅ "render failed"
              ltac:(reflexivity) ltac:(reflexivity) ltac:(reflexivity))
    as (Hthrow & Hin & _).
  split_and!; [reflexivity|reflexivity|exact Hthrow|reflexivity|exact Hin].
Qed.

(** C2 fails as stated: a forced refresh of [/hello-gone] renders a 404
    with a body -- neither (200, non-empty) nor (force, empty) -- and the
    listener deletes both records the store held. *)
Lemma forced_non200_render_purges_counterexample :
  (status (resolved rt conf_hello (GET "/hello-gone" forced)
             (store_holding "/hello-gone") ∅) = force
   ∧ render rt (renderArgs (GET "/hello-gone" forced)) = inr page_gone
   ∧ statusCode page_gone ≠ 200
   ∧ rv_body page_gone ≠ [])
  ∧ CacheDel "body:/hello-gone"
      ∈ trace (handle rt conf_hello
                 (incoming (GET "/hello-gone" forced)
                           (store_holding "/hello-gone") ∅))
  ∧ CacheDel "header:/hello-gone"
      ∈ trace (handle rt conf_hello
                 (incoming (GET "/hello-gone" forced)
                           (store_holding "/hello-gone") ∅))
  ∧ is_Some (store_holding "/hello-gone" !! "body:/hello-gone")
  ∧ cache (handle rt conf_hello
             (incoming (GET "/hello-gone" forced)
                       (store_holding "/hello-gone") ∅))
      !! "body:/hello-gone" = None.
Proof.
  split; [by split_and!|].
  assert (trace (handle rt conf_hello
                   (incoming (GET "/hello-gone" forced)
                             (store_holding "/hello-gone") ∅))
          = [CallServeCache "/hello-gone" true; LockAdd "/hello-gone";
             CallRender (renderArgs (GET "/hello-gone" forced));
             Serve page_gone;
             CacheDel "body:/hello-gone"; CacheDel "header:/hello-gone";
             LockDelete "/hello-gone"]) as -> by reflexivity.
  split_and!.
  - do 4 right. left.
  - do 5 right. left.
  - by eexists.
  - reflexivity.
Qed.

(** C3 fails as stated: with [paramFilter] dropping [p1], the key builder
    is called while [req.url] is [/params?p2=2], not the URL the request
    came in with. *)
Lemma cacheKey_builder_counterexample :
  ∃ seen,
    CallCacheKey seen
      ∈ trace (handle rt conf_params
                 (incoming (GET "/params?p1=1&p2=2" ∅) ∅ ∅))
    ∧ url seen = "/params?p2=2"
    ∧ url seen ≠ url (GET "/params?p1=1&p2=2" ∅).
Proof.
  exists (GET "/params?p2=2" ∅). split_and!; [|reflexivity|discriminate].
  assert (∃ tail,
            trace (handle rt conf_params
                     (incoming (GET "/params?p1=1&p2=2" ∅) ∅ ∅))
            = CallCacheKey (GET "/params?p2=2" ∅) :: tail) as [tail ->]
    by (eexists; reflexivity).
  left.
Qed.

(** ** The further properties at work *)

Lemma matchRule_matched_from_first_rule_witness :
  matched (matchRule rt conf_two (GET "/hello" ∅)) = true
  ∧ ∃ pre rule post,
      rules conf_two = pre ++ rule :: post
      ∧ RegExp_test rt (regex rule) "/hello" = true
      ∧ matchRule rt conf_two (GET "/hello" ∅)
        = {| matched := true; m_ttl := ttl rule |}.
Proof.
  split; [reflexivity|].
  destruct (matchRule_matched_from_first_rule rt conf_two (GET "/hello" ∅)
              ltac:(reflexivity))
    as (_ & _ & pre & rule & post & Hrules & _ & Hrule & Hres).
  by exists pre, rule, post.
Defined.

Lemma matchRule_unmatched_ttl_witness :
  matched (matchRule rt conf_hello (DELETE "/hello")) = false
  ∧ m_ttl (matchRule rt conf_hello (DELETE "/hello")) = (-1)%Q.
Proof.
  split; [reflexivity|].
  rewrite (matchRule_unmatched_ttl rt conf_hello (DELETE "/hello")
             ltac:(reflexivity)).
  reflexivity.
Defined.

Lemma empty_url_never_matched_witness :
  (url (GET "" ∅) = "" ∧ RegExp_test rt "" "" = true)
  ∧ matched (matchRule rt conf_any (GET "" ∅)) = false.
Proof.
  split; [by split|].
  apply (empty_url_never_matched rt conf_any (GET "" ∅)). reflexivity.
Defined.

Lemma appended_rules_keep_earlier_match_witness :
  (rules conf_two = rules conf_hello ++ [ {| regex := "/"; ttl := 5 |} ]
   ∧ matched (matchRule rt conf_hello (GET "/hello" ∅)) = true)
  ∧ matchRule rt conf_two (GET "/hello" ∅)
    = matchRule rt conf_hello (GET "/hello" ∅).
Proof.
  split; [by split|].
  apply (appended_rules_keep_earlier_match rt conf_hello conf_two
           [ {| regex := "/"; ttl := 5 |} ]); reflexivity.
Defined.

Lemma stopped_request_never_renders_witness :
  (matched (matchRule rt conf_hello (filtered rt conf_hello
                                       (GET "/hello" ∅))) = true
   ∧ stop (resolved rt conf_hello (GET "/hello" ∅)
             (store_holding "/hello") ∅) = true)
  ∧ cache (handle rt conf_hello
             (incoming (GET "/hello" ∅) (store_holding "/hello") ∅))
    = store_holding "/hello"
  ∧ responseWrites
      (trace (handle rt conf_hello
                (incoming (GET "/hello" ∅) (store_holding "/hello") ∅)))
    = 1%nat.
Proof.
  split; [by split|].
  destruct (stopped_request_never_renders rt conf_hello (GET "/hello" ∅)
              (store_holding "/hello") ∅ ltac:(reflexivity)
              ltac:(reflexivity)) as (_ & Hc & _ & _ & _ & Hw).
  split; [exact Hc|exact Hw].
Defined.

Lemma store_changes_only_at_key_witness :
  ("body:/other" ≠ "body:" +:+ keyOf rt conf_hello (GET "/hello" ∅)
   ∧ "body:/other" ≠ "header:" +:+ keyOf rt conf_hello (GET "/hello" ∅))
  ∧ cache (handle rt conf_hello
             (incoming (GET "/hello" ∅) (store_holding "/other") ∅))
      !! "body:/other"
    = store_holding "/other" !! "body:/other".
Proof.
  split; [by split|].
  apply (store_changes_only_at_key rt conf_hello (GET "/hello" ∅)
           (store_holding "/other") ∅ "body:/other"); discriminate.
Defined.

Lemma lock_set_changes_only_at_key_witness :
  "/other" ≠ keyOf rt conf_hello (GET "/hello-boom" ∅)
  ∧ ("/other" ∈ SYNC_LOCK (handle rt conf_hello
                             (incoming (GET "/hello-boom" ∅) ∅ {["/other"]}))
     ↔ "/other" ∈ ({["/other"]} : gset string)).
Proof.
  split; [discriminate|].
  apply (lock_set_changes_only_at_key rt conf_hello (GET "/hello-boom" ∅)
           ∅ {["/other"]} "/other"). discriminate.
Defined.

Lemma resolved_render_drops_key_from_lock_set_witness :
  (matched (matchRule rt conf_hello (filtered rt conf_hello
                                       (GET "/hello" ∅))) = true
   ∧ stop (resolved rt conf_hello (GET "/hello" ∅) ∅ {["/hello"]}) = false
   ∧ render rt (renderArgs (GET "/hello" ∅)) = inr page_hello)
  ∧ SYNC_LOCK (handle rt conf_hello
                 (incoming (GET "/hello" ∅) ∅ {["/hello"]}))
    = {["/hello"]} ∖ {["/hello"]}.
Proof.
  split; [by split_and!|].
  apply (resolved_render_drops_key_from_lock_set rt conf_hello
           (GET "/hello" ∅) ∅ {["/hello"]} page_hello); reflexivity.
Defined.

Lemma rejected_render_leaves_store_untouched_witness :
  (matched (matchRule rt_expired conf_hello
              (filtered rt_expired conf_hello (GET "/hello-boom" ∅))) = true
   ∧ stop (resolved rt_expired conf_hello (GET "/hello-boom" ∅)
             (store_holding "/hello-boom") ∅) = false
   ∧ render rt_expired (renderArgs (GET "/hello-boom" ∅))
     = inl "render failed")
  ∧ cache (handle rt_expired conf_hello
             (incoming (GET "/hello-boom" ∅) (store_holding "/hello-boom") ∅))
    = store_holding "/hello-boom"
  ∧ responseWrites
      (trace (handle rt_expired conf_hello
                (incoming (GET "/hello-boom" ∅)
                          (store_holding "/hello-boom") ∅)))
    = 1%nat.
Proof.
  split; [by split_and!|].
  destruct (rejected_render_leaves_store_untouched rt_expired conf_hello
              (GET "/hello-boom" ∅) (store_holding "/hello-boom") ∅
              "render failed" ltac:(reflexivity) ltac:(reflexivity)
              ltac:(reflexivity)) as (_ & Hc & _ & _ & Hw).
  split; [exact Hc|exact Hw].
Defined.

Lemma quiet_listener_never_logs_witness :
  quiet conf_hello = true
  ∧ List.filter isLog
      (trace (handle rt_expired conf_hello
                (incoming (GET "/hello" ∅) (store_holding "/hello") ∅)))
    = [].
Proof.
  split; [reflexivity|].
  apply (quiet_listener_never_logs rt_expired conf_hello). reflexivity.
Defined.


Lemma store_written_after_response_before_release_witness :
  (matched (matchRule rt conf_hello (filtered rt conf_hello
                                       (GET "/hello" ∅))) = true
   ∧ stop (resolved rt conf_hello (GET "/hello" ∅) ∅ ∅) = false
   ∧ render rt (renderArgs (GET "/hello" ∅)) = inr page_hello
   ∧ statusCode page_hello = 200
   ∧ rv_body page_hello ≠ [])
  ∧ ∃ pre,
      trace (handle rt conf_hello (incoming (GET "/hello" ∅) ∅ ∅))
      = pre ++ [CacheSet "body:/hello" (gzip_stub (Buffer_from "hello"))
                         (1 # 2);
                CacheSet "header:/hello" (Buffer_from "{x-lang:en}") (1 # 2);
                LockDelete "/hello"]
      ∧ Serve page_hello ∈ pre.
Proof.
  split; [by split_and!|].
  destruct (store_written_after_response_before_release rt conf_hello
              (GET "/hello" ∅) ∅ ∅ page_hello ltac:(reflexivity)
              ltac:(reflexivity) ltac:(reflexivity) ltac:(reflexivity)
              ltac:(discriminate))
    as (pre & Htr & _ & _ & _ & Hserve).
  exists pre. split; [exact Htr|]. apply Hserve. discriminate.
Defined.

Lemma stored_header_record_decodes_to_json_witness :
  (matched (matchRule rt conf_hello (filtered rt conf_hello
                                       (GET "/hello" ∅))) = true
   ∧ stop (resolved rt conf_hello (GET "/hello" ∅) ∅ ∅) = false
   ∧ render rt (renderArgs (GET "/hello" ∅)) = inr page_hello
   ∧ statusCode page_hello = 200
   ∧ rv_body page_hello ≠ [])
  ∧ ∃ record t,
      cache (handle rt conf_hello (incoming (GET "/hello" ∅) ∅ ∅))
        !! "header:/hello" = Some (record, t)
      ∧ String.string_of_list_byte record = "{x-lang:en}".
Proof.
  split; [by split_and!|].
  destruct (stored_header_record_decodes_to_json rt conf_hello
              (GET "/hello" ∅) ∅ ∅ page_hello ltac:(reflexivity)
              ltac:(reflexivity) ltac:(reflexivity) ltac:(reflexivity)
              ltac:(discriminate)) as (record & t & Hrec & Hjson).
  exists record, t. split; [exact Hrec|exact Hjson].
Defined.

Lemma store_then_purge_restores_store_witness :
  (keyOf rt conf_const (GET "/hello" ∅)
   = keyOf rt conf_const (GET "/hello-empty" forced)
   ∧ render rt (renderArgs (GET "/hello" ∅)) = inr page_hello
   ∧ render rt (renderArgs (GET "/hello-empty" forced)) = inr page_empty)
  ∧ is_Some (cache (handle rt conf_const (incoming (GET "/hello" ∅) ∅ ∅))
               !! "body:k")
  ∧ cache (handle rt conf_const
             (incoming (GET "/hello-empty" forced)
                (cache (handle rt conf_const (incoming (GET "/hello" ∅) ∅ ∅)))
                ∅))
    = ∅.
Proof.
  split; [by split_and!|]. split; [by eexists|].
  apply (store_then_purge_restores_store rt conf_const (GET "/hello" ∅)
           (GET "/hello-empty" forced) ∅ ∅ ∅ page_hello page_empty);
    try reflexivity.
  discriminate.
Defined.

(** C9 fails as stated: under [paramFilter] dropping [p1], the URL of
    [GET /a?x=1&p1=0&y=2] matches no configured rule, yet its filtered
    form [/a?x=1&y=2] does; the request is not handed to the plain handler,
    its key enters the lock set and both records are written. *)
Lemma unfiltered_url_unmatched_yet_cached_counterexample :
  Forall (λ x, RegExp_test rt (regex x)
                 (url (GET "/a?x=1&p1=0&y=2" ∅)) = false)
         (rules conf_xy)
  ∧ trace (handle rt conf_xy (incoming (GET "/a?x=1&p1=0&y=2" ∅) ∅ ∅))
    = [CallServeCache "/a?x=1&y=2" false;
       LockAdd "/a?x=1&y=2";
       CallRender (renderArgs (GET "/a?x=1&p1=0&y=2" ∅));
       Serve page_hello;
       CacheSet "body:/a?x=1&y=2" (gzip_stub (Buffer_from "hello")) 60;
       CacheSet "header:/a?x=1&y=2" (Buffer_from "{x-lang:en}") 60;
       LockDelete "/a?x=1&y=2"]
  ∧ is_Some (cache (handle rt conf_xy
                      (incoming (GET "/a?x=1&p1=0&y=2" ∅) ∅ ∅))
               !! "body:/a?x=1&y=2").
Proof.
  split_and!.
  - by repeat constructor.
  - reflexivity.
  - by eexists.
Qed.

End Examples.
